(** * URLHash: a shallow embedding of [lib/index.js]

    The class [URLHash] of [@lumjs/web-url-hash] converts between a URL hash
    string and a plain object of options.  This file embeds the methods of the
    class as Rocq functions and proves properties of them.

    Conventions of the embedding:
    - a JavaScript string is a [string] (code units are the 8-bit [ascii]);
    - a JavaScript number is modelled where it is integral, as a [Z], and its
      string conversion is the decimal expansion: this is what the code does
      for a safe integer, and the statements that depend on the digits keep
      to safe integers;
    - a plain object is its list of own enumerable properties, kept in the
      order in which [for ... in] and [Object.keys] enumerate it: array-index
      keys in ascending order first, then the other keys in insertion order;
      an object is a plain object, whose prototype is [Object.prototype],
      and the statements that depend on it keep to keys other than
      [__proto__], whose assignment would change the prototype;
    - the option objects that the instance caches live in a heap and are
      named by their address, so that the identity of an object and the
      mutation of a shared object can be stated;
    - a method that can throw returns a [Completion]; the instance, the heap
      and the host are threaded through explicitly; a pattern is one whose
      split gives strings, and [JSON.stringify] is taken where it returns;
    - [console.error] calls are not recorded. *)

From Stdlib Require Import ZArith Ascii String DecimalString.
From stdpp Require Import base list strings.

Local Open Scope Z_scope.

(** ** JavaScript values *)

Module JS.

(** A [RegExp] object, by the two operations the class applies to one:
    [String.prototype.match] (is there a match) and [String.prototype.split].
    The split gives strings: this is a pattern without capturing groups,
    since a group that takes no part in a match puts [undefined] among the
    pieces.  The statements about the shape of what is read keep to
    splitters that are strings. *)
Record RegExp : Type := mkRegExp {
  re_test : string -> bool;
  re_split : string -> list string;
}.

#[warnings="-register-all"]
Inductive value : Type :=
| JUndefined
| JNull
| JBool (b : bool)
| JNum (n : Z)
| JStr (s : string)
| JArr (items : list value)
| JObj (fields : list (string * value))
| JRegExp (r : RegExp)
| JFunction.

(** The type names of [core.types]: [F], [O], [B], [N], [S]. *)
Inductive type_name : Type := T_F | T_O | T_B | T_N | T_S | T_undefined.

Definition typeof (v : value) : type_name :=
  match v with
  | JUndefined => T_undefined
  | JNull => T_O
  | JBool _ => T_B
  | JNum _ => T_N
  | JStr _ => T_S
  | JArr _ => T_O
  | JObj _ => T_O
  | JRegExp _ => T_O
  | JFunction => T_F
  end.

Definition type_name_eqb (a b : type_name) : bool :=
  match a, b with
  | T_F, T_F | T_O, T_O | T_B, T_B | T_N, T_N | T_S, T_S
  | T_undefined, T_undefined => true
  | _, _ => false
  end.

Definition isArray (v : value) : bool :=
  match v with JArr _ => true | _ => false end.

(** ToBoolean. *)
Definition truthy (v : value) : bool :=
  match v with
  | JUndefined | JNull => false
  | JBool b => b
  | JNum n => negb (n =? 0)
  | JStr s => negb (String.eqb s "")
  | JArr _ | JObj _ | JRegExp _ | JFunction => true
  end.

Definition truthy_string (s : string) : bool := negb (String.eqb s "").

(** Number to string, for an integral number. *)
Definition Number_toString (n : Z) : string :=
  NilZero.string_of_int (Z.to_int n).

(** The text that [+] appends for a string or a number operand. *)
Definition text_of (v : value) : string :=
  match v with
  | JStr s => s
  | JNum n => Number_toString n
  | _ => ""
  end.

(** *** Strings *)

(** [s.split(sep)] for a string separator.  [split_from sep skip s] walks
    [s]; [skip] counts the characters of a separator just found that are
    still to be passed over. *)
Fixpoint split_from (sep : string) (skip : nat) (s : string) : list string :=
  match s with
  | EmptyString => [EmptyString]
  | String c s' =>
    match skip with
    | S k => split_from sep k s'
    | O =>
      if String.prefix sep s
      then EmptyString :: split_from sep (String.length sep - 1) s'
      else match split_from sep 0 s' with
           | seg :: rest => String c seg :: rest
           | [] => [String c EmptyString]
           end
    end
  end.

Fixpoint code_units (s : string) : list string :=
  match s with
  | EmptyString => []
  | String c s' => String c EmptyString :: code_units s'
  end.

Definition split_string (sep s : string) : list string :=
  if String.eqb sep "" then code_units s else split_from sep 0 s.

(** [s.substr(0,1) === '#'] and [s.substr(1)]. *)
Definition starts_with_hash (s : string) : bool :=
  match s with
  | String c _ => Ascii.eqb c "#"
  | EmptyString => false
  end.

Definition substr1 (s : string) : string :=
  match s with
  | String _ s' => s'
  | EmptyString => EmptyString
  end.

Definition lower (c : ascii) : ascii :=
  let n := nat_of_ascii c in
  if ((65 <=? n) && (n <=? 90))%nat then ascii_of_nat (n + 32) else c.

Fixpoint lowercase (s : string) : string :=
  match s with
  | EmptyString => EmptyString
  | String c s' => String (lower c) (lowercase s')
  end.

(** A character that [.] does not match. *)
Definition line_terminator (c : ascii) : bool :=
  Ascii.eqb c "010" || Ascii.eqb c "013".

(** [s] is [op], then characters that [.] matches, then [cl]. *)
Definition enclosed (op cl : ascii) (s : string) : bool :=
  match list_ascii_of_string s with
  | a :: rest =>
    match rev rest with
    | z :: mid =>
      Ascii.eqb a op && Ascii.eqb z cl
      && forallb (fun c => negb (line_terminator c)) mid
    | [] => false
    end
  | [] => false
  end.

(** *** Plain objects *)

Definition props : Type := list (string * value).

Definition digit (c : ascii) : option N :=
  let n := N_of_ascii c in
  if ((48 <=? n) && (n <=? 57))%N then Some (n - 48)%N else None.

Fixpoint digits_value (acc : N) (s : string) : option N :=
  match s with
  | EmptyString => Some acc
  | String c s' =>
    match digit c with
    | Some d => digits_value (10 * acc + d)%N s'
    | None => None
    end
  end.

(** An array index: a canonical numeric string below 2^32 - 1. *)
Definition array_index (k : string) : option N :=
  match k with
  | EmptyString => None
  | String c rest =>
    if Ascii.eqb c "0" && negb (String.eqb rest "") then None
    else match digits_value 0 k with
         | Some n => if (n <? 4294967295)%N then Some n else None
         | None => None
         end
  end.

(** Does a new key [k] enumerate before the existing key [k']? *)
Definition key_before (k k' : string) : bool :=
  match array_index k, array_index k' with
  | Some a, Some b => (a <? b)%N
  | Some _, None => true
  | None, _ => false
  end.

Fixpoint lookup_prop (k : string) (o : props) : option value :=
  match o with
  | [] => None
  | (k', v) :: o' => if String.eqb k k' then Some v else lookup_prop k o'
  end.

(** The properties that a plain object inherits from [Object.prototype]:
    [constructor] and the methods are functions, and [__proto__] gives the
    prototype, an object without enumerable properties. *)
Definition Object_prototype_functions : list string :=
  ["constructor"; "hasOwnProperty"; "isPrototypeOf"; "propertyIsEnumerable";
   "toLocaleString"; "toString"; "valueOf"; "__defineGetter__";
   "__defineSetter__"; "__lookupGetter__"; "__lookupSetter__"].

Definition Object_prototype (k : string) : option value :=
  if existsb (String.eqb k) Object_prototype_functions then Some JFunction
  else if String.eqb k "__proto__" then Some (JObj [])
  else None.

(** [o[k]], for a plain object: its own property, or else the one of
    [Object.prototype]. *)
Definition obj_get (o : props) (k : string) : value :=
  match lookup_prop k o with
  | Some v => v
  | None =>
    match Object_prototype k with
    | Some v => v
    | None => JUndefined
    end
  end.

(** A key other than [__proto__].  An assignment to [__proto__] makes no
    property: it changes the prototype or does nothing.  The objects of
    this file are plain objects, and [obj_set] stands for the assignment
    to a key that is ordinary. *)
Definition ordinary (k : string) : bool := negb (String.eqb k "__proto__").

(** An integer that is a number, and is written with all its digits. *)
Definition safe_integer (n : Z) : bool := Z.abs n <? 2 ^ 53.

Definition in_range (v : value) : bool :=
  match v with
  | JNum n => safe_integer n
  | _ => true
  end.

Definition has_own (o : props) (k : string) : bool :=
  match lookup_prop k o with Some _ => true | None => false end.

Fixpoint overwrite (k : string) (v : value) (o : props) : props :=
  match o with
  | [] => []
  | (k', v') :: o' =>
    if String.eqb k k' then (k', v) :: o' else (k', v') :: overwrite k v o'
  end.

Fixpoint insert_new (k : string) (v : value) (o : props) : props :=
  match o with
  | [] => [(k, v)]
  | (k', v') :: o' =>
    if key_before k k' then (k, v) :: o else (k', v') :: insert_new k v o'
  end.

(** [o[k] = v] *)
Definition obj_set (k : string) (v : value) (o : props) : props :=
  if has_own o k then overwrite k v o else insert_new k v o.

(** [delete o[k]] *)
Definition obj_delete (k : string) (o : props) : props :=
  List.filter (fun entry => negb (String.eqb k (fst entry))) o.

(** [Object.keys(o)] *)
Definition keys (o : props) : list string := map fst o.

(** The order of enumeration: array indices ascending, then the rest. *)
Definition key_le (k k' : string) : bool :=
  match array_index k, array_index k' with
  | Some a, Some b => (a <? b)%N
  | Some _, None => true
  | None, Some _ => false
  | None, None => true
  end.

Fixpoint enumeration_order (ks : list string) : bool :=
  match ks with
  | [] => true
  | k :: ks' =>
    match ks' with
    | [] => true
    | k' :: _ => key_le k k' && enumeration_order ks'
    end
  end.

(** The lists that are the properties of some object. *)
Definition well_formed (o : props) : Prop :=
  NoDup (keys o) /\ enumeration_order (keys o) = true.

End JS.

(** ** The class *)

Module URLHash.
Import JS.

(** [JSON_ALL], [JSON_ARR] and [JSON_OBJ], the three patterns of the module.
    [_json] holds one of them or [null], and the class compares it to them
    by identity. *)
Inductive JsonPattern : Type := JSON_ALL | JSON_ARR | JSON_OBJ.

Definition JsonPattern_eqb (a b : JsonPattern) : bool :=
  match a, b with
  | JSON_ALL, JSON_ALL | JSON_ARR, JSON_ARR | JSON_OBJ, JSON_OBJ => true
  | _, _ => false
  end.

(** [input.match(p)] is not null. *)
Definition json_test (p : JsonPattern) (input : string) : bool :=
  match p with
  | JSON_ALL => enclosed "[" "]" input || enclosed "{" "}" input
  | JSON_ARR => enclosed "[" "]" input
  | JSON_OBJ => enclosed "{" "}" input
  end.

(** [/^(true|yes)$/i] and [/^(false|no)$/i].  Splitting by a pattern that is
    anchored at both ends and has one group gives the pieces around the
    match and the group between them. *)
Definition anchored_words (w1 w2 : string) : RegExp :=
  let test s := String.eqb (lowercase s) w1 || String.eqb (lowercase s) w2 in
  {| re_test := test;
     re_split := fun s => if test s then [EmptyString; s; EmptyString] else [s] |}.

Definition true_re : RegExp := anchored_words "true" "yes".
Definition false_re : RegExp := anchored_words "false" "no".

(** A value of [_getters.separate] or [_getters.assign]. *)
Inductive Splitter : Type :=
| SplitStr (sep : string)
| SplitRegExp (r : RegExp).

(** A value of [_getters.true] or [_getters.false]. *)
Inductive Matcher : Type :=
| MatchStr (src : string)
| MatchRegExp (r : RegExp)
| MatchOff.

Record Getters : Type := mkGetters {
  get_separate : Splitter;
  get_assign : Splitter;
  get_true : Matcher;
  get_false : Matcher;
}.

(** [_setters.true] and [_setters.false] are a string or [false] ([None]). *)
Record Setters : Type := mkSetters {
  set_separate : string;
  set_assign : string;
  set_true : option string;
  set_false : option string;
}.

Definition default_getters : Getters :=
  {| get_separate := SplitStr ";";
     get_assign := SplitStr "=";
     get_true := MatchRegExp true_re;
     get_false := MatchRegExp false_re |}.

Definition default_setters : Setters :=
  {| set_separate := ";";
     set_assign := "=";
     set_true := Some "true";
     set_false := Some "false" |}.

Inductive error : Type :=
| Error (msg : string)
| TypeError (msg : string).

Inductive Completion (A : Type) : Type :=
| Normal (a : A)
| Throw (e : error).
Arguments Normal {A} a.
Arguments Throw {A} e.

Definition loc : Type := nat.

(** What the class takes from its host. *)
Class Host : Type := {
  (** The state that [getHash] reads and [setHash] writes. *)
  Env : Type;
  (** [location.hash] and its assignment. *)
  location_hash : Env -> string;
  set_location_hash : string -> Env -> Env;
  (** [JSON.parse] ([None] when it throws), [JSON.stringify] and
      [decodeURI] ([None] when it throws).  [JSON.stringify] is taken on
      the values for which it returns a string: the statement that
      [serialize] does not throw keeps to the values for which
      [JSON.stringify] is not called. *)
  JSON_parse : string -> option value;
  JSON_stringify : value -> string;
  decodeURI : string -> option string;
  (** [new RegExp(src)], which [String.prototype.match] builds from a
      string. *)
  RegExp_from : string -> RegExp;
  (** [core.obj.clone]. *)
  clone : value -> props;
}.

Section Methods.

Context {the_host : Host}.

Record Instance : Type := mkInstance {
  _getHash : Env -> string;
  _setHash : string -> Env -> Env;
  shortOpt : bool;
  autoArray : bool;
  _json : option JsonPattern;
  (** The class reads [this.json] and never assigns it. *)
  json : option JsonPattern;
  _getters : Getters;
  _setters : Setters;
  _lastHash : option string;
  _lastOpts : option loc;
}.

(** The instance, the heap of option objects, the host, and the arguments
    of the calls of [_setHash] so far. *)
Record World : Type := mkWorld {
  self : Instance;
  heap : list props;
  host : Env;
  setHash_calls : list string;
}.

Definition deref (w : World) (l : loc) : props :=
  match heap w !! l with
  | Some o => o
  | None => []
  end.

Definition alloc (o : props) (w : World) : loc * World :=
  (length (heap w),
   {| self := self w; heap := heap w ++ [o]; host := host w;
      setHash_calls := setHash_calls w |}).

Definition store (l : loc) (o : props) (w : World) : World :=
  {| self := self w; heap := <[l := o]> (heap w); host := host w;
     setHash_calls := setHash_calls w |}.

Definition with_self (i : Instance) (w : World) : World :=
  {| self := i; heap := heap w; host := host w;
     setHash_calls := setHash_calls w |}.

Definition set_lastHash (h : option string) (i : Instance) : Instance :=
  {| _getHash := _getHash i; _setHash := _setHash i; shortOpt := shortOpt i;
     autoArray := autoArray i; _json := _json i; json := json i;
     _getters := _getters i; _setters := _setters i;
     _lastHash := h; _lastOpts := _lastOpts i |}.

Definition set_lastOpts (o : option loc) (i : Instance) : Instance :=
  {| _getHash := _getHash i; _setHash := _setHash i; shortOpt := shortOpt i;
     autoArray := autoArray i; _json := _json i; json := json i;
     _getters := _getters i; _setters := _setters i;
     _lastHash := _lastHash i; _lastOpts := o |}.

Definition set_json (j : option JsonPattern) (i : Instance) : Instance :=
  {| _getHash := _getHash i; _setHash := _setHash i; shortOpt := shortOpt i;
     autoArray := autoArray i; _json := j; json := json i;
     _getters := _getters i; _setters := _setters i;
     _lastHash := _lastHash i; _lastOpts := _lastOpts i |}.

Definition set_getters (g : Getters) (i : Instance) : Instance :=
  {| _getHash := _getHash i; _setHash := _setHash i; shortOpt := shortOpt i;
     autoArray := autoArray i; _json := _json i; json := json i;
     _getters := g; _setters := _setters i;
     _lastHash := _lastHash i; _lastOpts := _lastOpts i |}.

Definition set_setters (s : Setters) (i : Instance) : Instance :=
  {| _getHash := _getHash i; _setHash := _setHash i; shortOpt := shortOpt i;
     autoArray := autoArray i; _json := _json i; json := json i;
     _getters := _getters i; _setters := s;
     _lastHash := _lastHash i; _lastOpts := _lastOpts i |}.

(** *** getOpts *)

Record GetOpts : Type := mkGetOpts {
  go_defaults : value;
  go_hash : option string;
  go_default : value;
  go_shortOpt : option value;
}.

(** [{}] *)
Definition no_GetOpts : GetOpts :=
  {| go_defaults := JUndefined; go_hash := None; go_default := JUndefined;
     go_shortOpt := None |}.

Definition split_by (sep : Splitter) (s : string) : list string :=
  match sep with
  | SplitStr t => split_string t s
  | SplitRegExp r => re_split r s
  end.

(** [m && input.match(m)] *)
Definition matcher_test (m : Matcher) (input : string) : bool :=
  match m with
  | MatchStr src => truthy_string src && re_test (RegExp_from src) input
  | MatchRegExp r => re_test r input
  | MatchOff => false
  end.

Definition getVal (jc : option JsonPattern) (tv fv : Matcher)
    (input : string) : value :=
  if match jc with Some p => json_test p input | None => false end
  then
    match decodeURI input with
    | Some text =>
      match JSON_parse text with
      | Some output => output
      | None => JUndefined
      end
    | None => JUndefined
    end
  else if matcher_test tv input then JBool true
  else if matcher_test fv input then JBool false
  else JStr input.

(** The body of the loop over the segments. *)
Definition read_segment (ass : Splitter) (jc : option JsonPattern)
    (tv fv : Matcher) (hashOpts : props) (segment : string) : props :=
  match split_by ass segment with
  | [_] => obj_set segment JNull hashOpts
  | [name; text] => obj_set name (getVal jc tv fv text) hashOpts
  | name :: rest => obj_set name (JArr (map JStr rest)) hashOpts
  | [] => obj_set "undefined" (JArr []) hashOpts
  end.

Definition read_segments (g : Getters) (jc : option JsonPattern)
    (hashOpts : props) (hash : string) : props :=
  fold_left (read_segment (get_assign g) jc (get_true g) (get_false g))
    (split_by (get_separate g) hash) hashOpts.

Definition is_object (v : value) : bool :=
  type_name_eqb (typeof v) T_O
  && match v with JNull => false | _ => true end.

Definition cache_hit (i : Instance) (hash : string) : option loc :=
  match _lastHash i, _lastOpts i with
  | Some last, Some opts =>
    if truthy_string last && String.eqb last hash then Some opts else None
  | _, _ => None
  end.

(** [getOpts(getOpts)].  The object [hashOpts] gets its address when the
    method lets it out, by returning it. *)
Definition getOpts (arg : option GetOpts) (w : World) : loc * World :=
  let getOpts := match arg with Some a => a | None => no_GetOpts end in
  let hashOpts :=
    if is_object (go_defaults getOpts) then clone (go_defaults getOpts)
    else [] in
  let hash :=
    match go_hash getOpts with
    | Some h => h
    | None => _getHash (self w) (host w)
    end in
  if truthy_string hash && negb (String.eqb hash "#")
  then
    match cache_hit (self w) hash with
    | Some opts => (opts, w)
    | None =>
      let w := with_self (set_lastHash (Some hash) (self w)) w in
      let hash := if starts_with_hash hash then substr1 hash else hash in
      let hashOpts :=
        read_segments (_getters (self w)) (_json (self w)) hashOpts hash in
      let (l, w) := alloc hashOpts w in
      (l, with_self (set_lastOpts (Some l) (self w)) w)
    end
  else alloc hashOpts w.

(** *** getOpt *)

Definition is_undefined (v : value) : bool :=
  match v with JUndefined => true | _ => false end.

Definition is_null (v : value) : bool :=
  match v with JNull => true | _ => false end.

Definition getOpt (name : string) (arg : option GetOpts) (w : World)
    : value * World :=
  let getOpts_ := match arg with Some a => a | None => no_GetOpts end in
  let shortOpt :=
    match go_shortOpt getOpts_ with
    | Some v => v
    | None => JBool (shortOpt (self w))
    end in
  let (l, w) := getOpts (Some getOpts_) w in
  let hashOpts := deref w l in
  if negb (is_undefined (obj_get hashOpts name))
  then (obj_get hashOpts name, w)
  else
    match keys hashOpts with
    | [key] =>
      if truthy shortOpt && is_null (obj_get hashOpts key)
      then (JStr key, w)
      else (go_default getOpts_, w)
    | _ => (go_default getOpts_, w)
    end.

(** *** serialize *)

Record SetOpts : Type := mkSetOpts {
  so_autoArray : option value;
}.

(** [{}] *)
Definition no_SetOpts : SetOpts := {| so_autoArray := None |}.

(** [typeof v === S || typeof v === N] *)
Definition string_or_number (v : value) : bool :=
  type_name_eqb (typeof v) T_S || type_name_eqb (typeof v) T_N.

(** Can we serialize Arrays to JSON? *)
Definition serializeJsonArray (this : Instance) : bool :=
  match _json this with
  | Some p => JsonPattern_eqb p JSON_ARR || JsonPattern_eqb p JSON_ALL
  | None => false
  end.

(** Can we serialize Objects to JSON? *)
Definition serializeJsonObject (this : Instance) : bool :=
  match _json this with
  | Some p => JsonPattern_eqb p JSON_OBJ
  | None => false
  end
  || match json this with
     | Some p => JsonPattern_eqb p JSON_ALL
     | None => false
     end.

(** The inner function of [serialize]. *)
Definition serializeArray (assign : string) (array : list value) : string :=
  fold_left
    (fun string item =>
       if string_or_number item then string +:+ assign +:+ text_of item
       else string)
    array EmptyString.

(** [v && ...] for a setter that is a string or [false]. *)
Definition enabled (literal : option string) : option string :=
  match literal with
  | Some s => if truthy_string s then Some s else None
  | None => None
  end.

(** The setter for the literal of a boolean. *)
Definition literal_of (b : bool) (s : Setters) : option string :=
  if b then set_true s else set_false s.

(** What one pass of the loop appends after the key. *)
Definition serialize_value (this : Instance) (autoArray : value)
    (val : value) : Completion string :=
  let assign := set_assign (_setters this) in
  let tv := enabled (set_true (_setters this)) in
  let fv := enabled (set_false (_setters this)) in
  match val, tv, fv with
  | JNull, _, _ => Normal EmptyString
  | JBool true, Some tv, _ => Normal (assign +:+ tv)
  | JBool false, _, Some fv => Normal (assign +:+ fv)
  | _, _, _ =>
    if type_name_eqb (typeof val) T_O then
      match val with
      | JArr items =>
        if serializeJsonArray this then
          if truthy autoArray then
            let useJson := negb (forallb string_or_number items) in
            if useJson then Normal (assign +:+ JSON_stringify val)
            else Normal (serializeArray assign items)
          else Normal (assign +:+ JSON_stringify val)
        else Normal (serializeArray assign items)
      | _ =>
        if serializeJsonObject this
        then Normal (assign +:+ JSON_stringify val)
        else Throw (Error "Cannot serialize object when JSON is disabled")
      end
    else if string_or_number val then Normal (assign +:+ text_of val)
    else Throw (TypeError "Invalid valid type passed to serialize()")
  end.

Fixpoint serialize_loop (this : Instance) (autoArray : value) (obj : props)
    (doneFirst : bool) (hashString : string) : Completion string :=
  match obj with
  | [] => Normal hashString
  | (key, val) :: rest =>
    let hashString :=
      if doneFirst then hashString +:+ set_separate (_setters this)
      else hashString in
    let hashString := hashString +:+ key in
    match serialize_value this autoArray val with
    | Normal text =>
      serialize_loop this autoArray rest true (hashString +:+ text)
    | Throw e => Throw e
    end
  end.

Definition serialize (this : Instance) (obj : props) (arg : option SetOpts)
    : Completion string :=
  let setOpts := match arg with Some a => a | None => no_SetOpts end in
  let autoArray :=
    match so_autoArray setOpts with
    | Some v => v
    | None => JBool (autoArray this)
    end in
  serialize_loop this autoArray obj false "#".

(** *** replace, update, delete *)

Definition replace (reps : loc) (setOpts : option SetOpts) (w : World)
    : Completion unit * World :=
  match serialize (self w) (deref w reps) setOpts with
  | Throw e => (Throw e, w)
  | Normal newstring =>
    let this := set_lastOpts (Some reps)
                  (set_lastHash (Some newstring) (self w)) in
    (Normal tt,
     {| self := this; heap := heap w;
        host := _setHash this newstring (host w);
        setHash_calls := setHash_calls w ++ [newstring] |})
  end.

(** The body of the loop of [update]. *)
Definition apply_update (current : props) (entry : string * value) : props :=
  let (key, val) := entry in
  if is_undefined val then obj_delete key current
  else obj_set key val current.

Definition update (updates : props) (setOpts : option SetOpts)
    (getOpts_ : option GetOpts) (w : World) : Completion unit * World :=
  let (current, w) := getOpts getOpts_ w in
  let w := store current (fold_left apply_update updates (deref w current)) w in
  replace current setOpts w.

Definition delete (props_ : list string) (setOpts : option SetOpts)
    (getOpts_ : option GetOpts) (w : World) : Completion unit * World :=
  let updates := fold_left (fun u p => obj_set p JUndefined u) props_ [] in
  update updates None None w.

(** *** Configuration *)

Definition useJson (v : value) (this : Instance) : Completion Instance :=
  match v with
  | JBool false => Normal (set_json None this)
  | JBool true => Normal (set_json (Some JSON_ALL) this)
  | JStr s =>
    if String.eqb s "array" then Normal (set_json (Some JSON_ARR) this)
    else if String.eqb s "object" then Normal (set_json (Some JSON_OBJ) this)
    else Throw (Error "Invalid value passed to useJson()")
  | _ => Throw (Error "Invalid value passed to useJson()")
  end.

Definition setSetter (name : string) (v : value) (this : Instance)
    : Completion Instance :=
  let s := _setters this in
  let invalid :=
    Throw (Error ("Invalid '" +:+ name +:+ "' value passed to setSetter()")) in
  if String.eqb name "true" then
    match v with
    | JStr t => Normal (set_setters
        {| set_separate := set_separate s; set_assign := set_assign s;
           set_true := Some t; set_false := set_false s |} this)
    | JBool false => Normal (set_setters
        {| set_separate := set_separate s; set_assign := set_assign s;
           set_true := None; set_false := set_false s |} this)
    | _ => invalid
    end
  else if String.eqb name "false" then
    match v with
    | JStr t => Normal (set_setters
        {| set_separate := set_separate s; set_assign := set_assign s;
           set_true := set_true s; set_false := Some t |} this)
    | JBool false => Normal (set_setters
        {| set_separate := set_separate s; set_assign := set_assign s;
           set_true := set_true s; set_false := None |} this)
    | _ => invalid
    end
  else if String.eqb name "separate" then
    match v with
    | JStr t => Normal (set_setters
        {| set_separate := t; set_assign := set_assign s;
           set_true := set_true s; set_false := set_false s |} this)
    | _ => invalid
    end
  else if String.eqb name "assign" then
    match v with
    | JStr t => Normal (set_setters
        {| set_separate := set_separate s; set_assign := t;
           set_true := set_true s; set_false := set_false s |} this)
    | _ => invalid
    end
  else
    Throw (Error ("Unknown setter name '" +:+ name
                  +:+ "' passed to setSetter()")).

Definition setGetter (name : string) (v : value) (this : Instance)
    : Completion Instance :=
  let g := _getters this in
  let invalid :=
    Throw (Error ("Invalid '" +:+ name +:+ "' value passed to setGetter()")) in
  let matcher :=
    match v with
    | JStr t => Some (MatchStr t)
    | JBool false => Some MatchOff
    | JRegExp r => Some (MatchRegExp r)
    | _ => None
    end in
  let splitter :=
    match v with
    | JStr t => Some (SplitStr t)
    | JRegExp r => Some (SplitRegExp r)
    | _ => None
    end in
  if String.eqb name "true" then
    match matcher with
    | Some m => Normal (set_getters
        {| get_separate := get_separate g; get_assign := get_assign g;
           get_true := m; get_false := get_false g |} this)
    | None => invalid
    end
  else if String.eqb name "false" then
    match matcher with
    | Some m => Normal (set_getters
        {| get_separate := get_separate g; get_assign := get_assign g;
           get_true := get_true g; get_false := m |} this)
    | None => invalid
    end
  else if String.eqb name "separate" then
    match splitter with
    | Some m => Normal (set_getters
        {| get_separate := m; get_assign := get_assign g;
           get_true := get_true g; get_false := get_false g |} this)
    | None => invalid
    end
  else if String.eqb name "assign" then
    match splitter with
    | Some m => Normal (set_getters
        {| get_separate := get_separate g; get_assign := m;
           get_true := get_true g; get_false := get_false g |} this)
    | None => invalid
    end
  else
    Throw (Error ("Unknown getter name '" +:+ name
                  +:+ "' passed to setGetter()")).

(** The enumerable properties that [for ... in] finds in a value whose
    [typeof] is [O]. *)
Fixpoint index_props (n : nat) (items : list value) : props :=
  match items with
  | [] => []
  | v :: rest =>
    (NilZero.string_of_uint (Nat.to_uint n), v) :: index_props (S n) rest
  end.

Definition for_in (v : value) : props :=
  match v with
  | JObj fields => fields
  | JArr items => index_props 0 items
  | _ => []
  end.

Fixpoint set_each (set : string -> value -> Instance -> Completion Instance)
    (entries : props) (this : Instance) : Completion Instance :=
  match entries with
  | [] => Normal this
  | (key, val) :: rest =>
    match set key val this with
    | Normal this => set_each set rest this
    | Throw e => Throw e
    end
  end.

Definition setGetters (obj : value) (this : Instance) : Completion Instance :=
  if type_name_eqb (typeof obj) T_O then set_each setGetter (for_in obj) this
  else Throw (Error "Invalid object passed to setGetters()").

Definition setSetters (obj : value) (this : Instance) : Completion Instance :=
  if type_name_eqb (typeof obj) T_O then set_each setSetter (for_in obj) this
  else Throw (Error "Invalid object passed to setSetters()").

(** The options of the constructor.  An option that is [None] is absent. *)
Record Options : Type := mkOptions {
  opt_getHash : option (Env -> string);
  opt_setHash : option (string -> Env -> Env);
  opt_shortOpt : option value;
  opt_autoArray : option value;
  opt_json : option value;
  opt_getters : option value;
  opt_setters : option value;
}.

(** [{}] *)
Definition no_Options : Options :=
  {| opt_getHash := None; opt_setHash := None; opt_shortOpt := None;
     opt_autoArray := None; opt_json := None; opt_getters := None;
     opt_setters := None |}.

(** [{json: j}] and [{json: j, autoArray: a}] *)
Definition options_json (j : value) : Options :=
  {| opt_getHash := None; opt_setHash := None; opt_shortOpt := None;
     opt_autoArray := None; opt_json := Some j; opt_getters := None;
     opt_setters := None |}.

Definition options_json_autoArray (j a : value) : Options :=
  {| opt_getHash := None; opt_setHash := None; opt_shortOpt := None;
     opt_autoArray := Some a; opt_json := Some j; opt_getters := None;
     opt_setters := None |}.

Definition constructor (opts : Options) : Completion Instance :=
  let this :=
    {| _getHash := match opt_getHash opts with
                   | Some f => f
                   | None => location_hash
                   end;
       _setHash := match opt_setHash opts with
                   | Some f => f
                   | None => set_location_hash
                   end;
       shortOpt := match opt_shortOpt opts with
                   | Some (JBool b) => b
                   | _ => false
                   end;
       autoArray := match opt_autoArray opts with
                    | Some (JBool b) => b
                    | _ => true
                    end;
       _json := None;
       json := None;
       _getters := default_getters;
       _setters := default_setters;
       _lastHash := None;
       _lastOpts := None |} in
  let step (o : option value) (f : value -> Instance -> Completion Instance)
      (c : Completion Instance) : Completion Instance :=
    match c, o with
    | Normal this, Some v => f v this
    | _, _ => c
    end in
  step (opt_setters opts) setSetters
    (step (opt_getters opts) setGetters
       (step (opt_json opts) useJson (Normal this))).


End Methods.

(** *** Notions for the statements *)

Section Notions.

Context {the_host : Host}.


(** The cached object, when there is one, is in the heap. *)
Definition cache_in_heap (w : World) : Prop :=
  match _lastOpts (self w) with
  | Some l => (l < length (heap w))%nat
  | None => True
  end.

(** [{hash: s}] *)
Definition options_hash (s : string) : GetOpts :=
  {| go_defaults := JUndefined; go_hash := Some s; go_default := JUndefined;
     go_shortOpt := None |}.

(** Does the character occur in the string? *)
Fixpoint has_char (c : ascii) (s : string) : bool :=
  match s with
  | EmptyString => false
  | String a s' => Ascii.eqb a c || has_char c s'
  end.

(** A string without the default separator and assignment characters. *)
Definition plain (s : string) : bool :=
  negb (has_char ";" s) && negb (has_char "=" s).

(** The values that [serialize] writes, under the default setters, as a
    text that [getOpts] reads, under the default getters, as one value. *)
Definition reads_back (v : value) : bool :=
  match v with
  | JNull | JBool _ | JNum _ => true
  | JStr s => plain s && negb (re_test true_re s) && negb (re_test false_re s)
  | _ => false
  end.

(** The value that is read: a number comes back as its text. *)
Definition as_read (v : value) : value :=
  match v with
  | JNum n => JStr (Number_toString n)
  | _ => v
  end.

(** What the default setters write after a key. *)
Definition literal_text (v : value) : string :=
  match v with
  | JNull => EmptyString
  | JBool true => "=true"
  | JBool false => "=false"
  | _ => "=" +:+ text_of v
  end.

Definition entry_text (entry : string * value) : string :=
  fst entry +:+ literal_text (snd entry).

(** The text of the entries with [";"] between them, and before the first
    of them when [doneFirst]. *)
Fixpoint joined (doneFirst : bool) (m : props) : string :=
  match m with
  | [] => EmptyString
  | entry :: rest =>
    (if doneFirst then ";" else EmptyString)
    +:+ (entry_text entry +:+ joined true rest)
  end.

(** The characters of the text of an integral number. *)
Definition numeric_char (c : ascii) : bool :=
  match digit c with
  | Some _ => true
  | None => Ascii.eqb c "-"
  end.

Fixpoint numeric (s : string) : bool :=
  match s with
  | EmptyString => true
  | String c s' => numeric_char c && numeric s'
  end.

End Notions.

(** *** The static methods *)

Section Statics.

Context {the_host : Host}.

(** [new URLHash(hashOpts)], where an omitted [hashOpts] is [{}].  A static
    method makes an instance for the call: the instance that the world had
    is not used, and the world that comes out has the new one. *)
Definition new_URLHash (hashOpts : option Options) : Completion Instance :=
  constructor match hashOpts with Some o => o | None => no_Options end.

Definition static_getOpts (getOpts_ : option GetOpts)
    (hashOpts : option Options) (w : World) : Completion (loc * World) :=
  match new_URLHash hashOpts with
  | Normal this => Normal (getOpts getOpts_ (with_self this w))
  | Throw e => Throw e
  end.

Definition static_getOpt (name : string) (getOpts_ : option GetOpts)
    (hashOpts : option Options) (w : World) : Completion (value * World) :=
  match new_URLHash hashOpts with
  | Normal this => Normal (getOpt name getOpts_ (with_self this w))
  | Throw e => Throw e
  end.

Definition static_replace (reps : loc) (setOpts : option SetOpts)
    (hashOpts : option Options) (w : World) : Completion unit * World :=
  match new_URLHash hashOpts with
  | Normal this => replace reps setOpts (with_self this w)
  | Throw e => (Throw e, w)
  end.

Definition static_update (updates : props) (setOpts : option SetOpts)
    (getOpts_ : option GetOpts) (hashOpts : option Options) (w : World)
    : Completion unit * World :=
  match new_URLHash hashOpts with
  | Normal this => update updates setOpts getOpts_ (with_self this w)
  | Throw e => (Throw e, w)
  end.

(** *** More notions for the statements *)

(** The hash that [getOpts] works on. *)
Definition hash_of (arg : option GetOpts) (w : World) : string :=
  match go_hash match arg with Some a => a | None => no_GetOpts end with
  | Some h => h
  | None => _getHash (self w) (host w)
  end.

(** The object that [getOpts] starts from. *)
Definition seed_of (arg : option GetOpts) : props :=
  let a := match arg with Some a => a | None => no_GetOpts end in
  if is_object (go_defaults a) then clone (go_defaults a) else [].

(** The hash without its first character when that is the hash character. *)
Definition stripped (hash : string) : string :=
  if starts_with_hash hash then substr1 hash else hash.

(** The name that a segment sets and the value that it sets it to. *)
Definition segment_name (ass : Splitter) (segment : string) : string :=
  match split_by ass segment with
  | [_] => segment
  | name :: _ => name
  | [] => "undefined"
  end.

Definition segment_value (ass : Splitter) (jc : option JsonPattern)
    (tv fv : Matcher) (segment : string) : value :=
  match split_by ass segment with
  | [_] => JNull
  | [_; text] => getVal jc tv fv text
  | _ :: rest => JArr (map JStr rest)
  | [] => JArr []
  end.

(** The values that reading a hash without JSON can make. *)
Definition is_string (v : value) : bool :=
  match v with JStr _ => true | _ => false end.

Definition read_shape (v : value) : bool :=
  match v with
  | JNull | JBool _ | JStr _ => true
  | JArr items => forallb is_string items
  | _ => false
  end.

(** The items that [serializeArray] writes, and what it writes for them. *)
Fixpoint flat_text (assign : string) (items : list value) : string :=
  match items with
  | [] => EmptyString
  | item :: rest => assign +:+ (text_of item +:+ flat_text assign rest)
  end.

(** The values that [serialize] writes when both boolean literals are on:
    all but [undefined], a function, and an object that is not an array
    (a pattern too). *)
Definition writable (v : value) : bool :=
  match v with
  | JNull | JBool _ | JNum _ | JStr _ | JArr _ => true
  | _ => false
  end.

(** The getters under which reading a hash calls nothing that can throw
    and splits into strings: the two splitters are strings, and each of the
    two matchers is a pattern or is off (a matcher that is a string is
    compiled to a pattern at each use). *)
Definition is_pattern_or_off (m : Matcher) : bool :=
  match m with
  | MatchStr _ => false
  | MatchRegExp _ | MatchOff => true
  end.

Definition total_getters (g : Getters) : bool :=
  match get_separate g, get_assign g with
  | SplitStr _, SplitStr _ =>
    is_pattern_or_off (get_true g) && is_pattern_or_off (get_false g)
  | _, _ => false
  end.

(** The option [autoArray] that [serialize] goes by. *)
Definition autoArray_of (this : Instance) (setOpts : option SetOpts)
    : value :=
  match so_autoArray match setOpts with
                     | Some a => a
                     | None => no_SetOpts
                     end with
  | Some v => v
  | None => JBool (autoArray this)
  end.

(** The values for which [serialize] does not call [JSON.stringify]: all
    but an array when arrays are written as JSON, unless the automatic
    choice is on and the items are strings and numbers. *)
Definition written_flat (this : Instance) (autoArray : value) (v : value)
    : bool :=
  match v with
  | JArr items =>
    negb (serializeJsonArray this)
    || (truthy autoArray && forallb string_or_number items)
  | _ => true
  end.

(** The second instance has the cache of the first. *)
Definition same_cache (this this' : Instance) : Prop :=
  _lastHash this' = _lastHash this /\ _lastOpts this' = _lastOpts this.

(** The instance with another [autoArray]. *)
Definition with_autoArray (b : bool) (i : Instance) : Instance :=
  {| _getHash := _getHash i; _setHash := _setHash i; shortOpt := shortOpt i;
     autoArray := b; _json := _json i; json := json i;
     _getters := _getters i; _setters := _setters i;
     _lastHash := _lastHash i; _lastOpts := _lastOpts i |}.

(** A string item without the default separator and assignment
    characters. *)
Definition plain_string (v : value) : bool :=
  is_string v && plain (text_of v).

(** The values that the default grammar, without JSON, writes and reads
    back as themselves: [null], booleans, strings that are not read as
    something else, and arrays of two such strings or more. *)
Definition comes_back (v : value) : bool :=
  match v with
  | JNull | JBool _ => true
  | JStr s => plain s && negb (re_test true_re s) && negb (re_test false_re s)
  | JArr items => (2 <=? length items)%nat && forallb plain_string items
  | _ => false
  end.

(** What the default setters write after a key, for an array too. *)
Definition written (v : value) : string :=
  match v with
  | JArr items => flat_text "=" items
  | _ => literal_text v
  end.

Definition entry_written (entry : string * value) : string :=
  fst entry +:+ written (snd entry).

Fixpoint joined_written (doneFirst : bool) (m : props) : string :=
  match m with
  | [] => EmptyString
  | entry :: rest =>
    (if doneFirst then ";" else EmptyString)
    +:+ (entry_written entry +:+ joined_written true rest)
  end.

(** An item that the default grammar writes and reads as one piece. *)
Definition plain_item (v : value) : bool :=
  string_or_number v && plain (text_of v).

End Statics.

(** *** A host and instances for the examples *)

(** A host whose state is the hash of the location.  The examples reach
    neither JSON nor a pattern made from a string. *)
Definition page : Host :=
  {| Env := string;
     location_hash := fun fragment => fragment;
     set_location_hash := fun newhash _ => newhash;
     JSON_parse := fun _ => None;
     JSON_stringify := fun _ => "null";
     decodeURI := fun text => Some text;
     RegExp_from := fun _ =>
       {| re_test := fun _ => false; re_split := fun s => [s] |};
     clone := for_in |}.

(** What [new URLHash(opts)] makes on that host when [opts] has none of
    [json], [getters], [setters], [getHash] and [setHash]. *)
Definition page_instance (shortOpt_ autoArray_ : bool)
    : Instance (the_host := page) :=
  {| _getHash := location_hash (Host := page);
     _setHash := set_location_hash (Host := page);
     shortOpt := shortOpt_;
     autoArray := autoArray_;
     _json := None;
     json := None;
     _getters := default_getters;
     _setters := default_setters;
     _lastHash := None;
     _lastOpts := None |}.

(** That instance after [setSetter(name, false)]. *)
Definition page_instance_without (name : string)
    : Instance (the_host := page) :=
  match setSetter name (JBool false) (page_instance false true) with
  | Normal this => this
  | Throw _ => page_instance false true
  end.

(** A world with one instance, the given objects and the given hash. *)
Definition page_world (this : Instance (the_host := page))
    (objects : list props) (fragment : string) : World (the_host := page) :=
  {| self := this; heap := objects; host := fragment; setHash_calls := [] |}.

(** ** Properties *)

Section Properties.

Context {the_host : Host}.


(** *** The heap *)

Lemma deref_alloc (o : props) (w : World) :
  deref (snd (alloc o w)) (fst (alloc o w)) = o.
Proof.
  unfold deref, alloc; simpl.
  rewrite lookup_app_r by lia.
  now rewrite Nat.sub_diag.
Qed.

Lemma store_alloc (o o' : props) (w : World) :
  heap (store (fst (alloc o w)) o' (snd (alloc o w))) = heap w ++ [o'].
Proof.
  unfold store, alloc; simpl.
  rewrite insert_app_r_alt by lia.
  now rewrite Nat.sub_diag.
Qed.

Lemma deref_store (l : loc) (o : props) (w : World) :
  (l < length (heap w))%nat -> deref (store l o w) l = o.
Proof.
  intros Hl. unfold deref, store; simpl.
  now rewrite list_lookup_insert_eq.
Qed.

Lemma deref_fresh (w : World) (h : list props) (o : props) :
  heap w = h ++ [o] -> deref w (length h) = o.
Proof.
  intros Hw. unfold deref. rewrite Hw, lookup_app_r by lia.
  now rewrite Nat.sub_diag.
Qed.

(** *** The cache of [getOpts] *)

Lemma present_hash (s : string) :
  s <> EmptyString -> s <> "#" ->
  truthy_string s && negb (String.eqb s "#") = true.
Proof.
  intros Hs Hh. unfold truthy_string.
  apply String.eqb_neq in Hs, Hh. now rewrite Hs, Hh.
Qed.

(** After [getOpts] has seen a hash, the cache holds what it returned. *)
Lemma getOpts_fills_cache (a : GetOpts) (s : string) (w : World) :
  go_hash a = Some s -> s <> EmptyString -> s <> "#" ->
  cache_hit (self (snd (getOpts (Some a) w))) s
  = Some (fst (getOpts (Some a) w)).
Proof.
  intros Ha Hs Hh. unfold getOpts. rewrite Ha, (present_hash s Hs Hh).
  destruct (cache_hit (self w) s) as [opts|] eqn:Hc; simpl.
  - exact Hc.
  - unfold cache_hit; simpl. unfold truthy_string.
    apply String.eqb_neq in Hs. now rewrite Hs, String.eqb_refl.
Qed.

(** On a hit the cached object is returned and nothing changes. *)
Lemma getOpts_hit (a : GetOpts) (s : string) (l : loc) (w : World) :
  go_hash a = Some s -> s <> EmptyString -> s <> "#" ->
  cache_hit (self w) s = Some l ->
  getOpts (Some a) w = (l, w).
Proof.
  intros Ha Hs Hh Hc. unfold getOpts.
  now rewrite Ha, (present_hash s Hs Hh), Hc.
Qed.

(** The same when the hash comes from [_getHash]. *)
Lemma getOpts_hit_source (l : loc) (w : World) :
  _getHash (self w) (host w) <> EmptyString ->
  _getHash (self w) (host w) <> "#" ->
  cache_hit (self w) (_getHash (self w) (host w)) = Some l ->
  getOpts None w = (l, w).
Proof.
  intros Hs Hh Hc. unfold getOpts. cbn [no_GetOpts go_hash].
  now rewrite (present_hash _ Hs Hh), Hc.
Qed.

(** C4.  Two calls of [getOpts] in succession with the same hash string,
    not empty and not ["#"], return the same object: the second call finds
    the first call's result in the cache, returns it, and changes nothing. *)
Theorem getOpts_twice_same_object (a : GetOpts) (s : string) (w : World) :
  go_hash a = Some s -> s <> EmptyString -> s <> "#" ->
  let first := getOpts (Some a) w in
  let second := getOpts (Some a) (snd first) in
  fst second = fst first
  /\ cache_hit (self (snd first)) s = Some (fst first)
  /\ snd second = snd first
  /\ deref (snd second) (fst second) = deref (snd first) (fst first).
Proof.
  intros Ha Hs Hh first second.
  pose proof (getOpts_fills_cache a s w Ha Hs Hh) as Hc.
  fold first in Hc.
  assert (Hsecond : second = (fst first, snd first)).
  { unfold second. now apply (getOpts_hit a s). }
  rewrite Hsecond. simpl. auto.
Qed.

(** C9.  When [getOpts] is called with a hash string, not empty and not
    ["#"], and then again with the same string and other options, whatever
    their [defaults], the second call returns the object that the first one
    returned, with the properties it had, and changes nothing. *)
Theorem getOpts_hit_ignores_defaults (a1 a2 : GetOpts) (s : string)
    (w : World) :
  go_hash a1 = Some s -> go_hash a2 = Some s ->
  s <> EmptyString -> s <> "#" ->
  let first := getOpts (Some a1) w in
  getOpts (Some a2) (snd first) = (fst first, snd first)
  /\ deref (snd (getOpts (Some a2) (snd first)))
       (fst (getOpts (Some a2) (snd first)))
     = deref (snd first) (fst first).
Proof.
  intros H1 H2 Hs Hh first.
  pose proof (getOpts_fills_cache a1 s w H1 Hs Hh) as Hc.
  fold first in Hc.
  rewrite (getOpts_hit a2 s (fst first) (snd first) H2 Hs Hh Hc).
  split; reflexivity.
Qed.


(** *** Errors of [serialize] *)

Lemma serialize_loop_throws (this : Instance) (autoArray_ : value)
    (obj : props) :
  (exists key val e,
      In (key, val) obj /\ serialize_value this autoArray_ val = Throw e) ->
  forall doneFirst hashString,
    exists e, serialize_loop this autoArray_ obj doneFirst hashString = Throw e.
Proof.
  induction obj as [|[key' val'] rest IH]; intros (key & val & e & Hin & He).
  - destruct Hin.
  - intros doneFirst hashString. simpl.
    destruct (serialize_value this autoArray_ val') as [text|e'] eqn:Hv.
    + destruct Hin as [Heq|Hin].
      * injection Heq as -> ->. congruence.
      * apply IH. now exists key, val, e.
    + now exists e'.
Qed.

Lemma serialize_value_object (this : Instance) (autoArray_ : value)
    (fields : list (string * value)) :
  serializeJsonObject this = false ->
  serialize_value this autoArray_ (JObj fields)
  = Throw (Error "Cannot serialize object when JSON is disabled").
Proof.
  intros H. unfold serialize_value.
  destruct (enabled (set_true (_setters this))),
    (enabled (set_false (_setters this))); simpl; now rewrite H.
Qed.

Lemma serialize_value_boolean (this : Instance) (autoArray_ : value)
    (b : bool) :
  literal_of b (_setters this) = None ->
  serialize_value this autoArray_ (JBool b)
  = Throw (TypeError "Invalid valid type passed to serialize()").
Proof.
  intros H. unfold serialize_value.
  destruct b; simpl in H; rewrite H; simpl.
  - reflexivity.
  - now destruct (enabled (set_true (_setters this))).
Qed.

(** C5.  When [_json] is [null], [replace] with an object that has a
    property whose value is a plain object throws; [_setHash] is not called
    and [_lastHash], [_lastOpts] and everything else stay as they were. *)
Theorem replace_object_without_json (reps : loc) (setOpts : option SetOpts)
    (w : World) (key : string) (fields : list (string * value)) :
  _json (self w) = None -> json (self w) = None ->
  In (key, JObj fields) (deref w reps) ->
  exists e,
    replace reps setOpts w = (Throw e, w)
    /\ setHash_calls (snd (replace reps setOpts w)) = setHash_calls w
    /\ _lastHash (self (snd (replace reps setOpts w))) = _lastHash (self w)
    /\ _lastOpts (self (snd (replace reps setOpts w))) = _lastOpts (self w).
Proof.
  intros Hj Hj' Hin.
  assert (Hno : serializeJsonObject (self w) = false).
  { unfold serializeJsonObject. now rewrite Hj, Hj'. }
  unfold replace, serialize.
  match goal with
  | |- context [serialize_loop ?t ?a ?o ?d ?h] =>
    destruct (serialize_loop_throws t a o) with (doneFirst := d)
      (hashString := h) as [e He]
  end.
  { exists key, (JObj fields). eexists. split; [exact Hin|].
    now apply serialize_value_object. }
  rewrite He. exists e. simpl. auto.
Qed.

(** C2, as the code has it.  When a boolean is to be serialized and the
    setter for its literal is [false], [serialize] throws and returns no
    string; when nothing comes before that property, what it throws is the
    [TypeError] of the last branch. *)
Theorem serialize_boolean_literal_off (this : Instance)
    (before after : props) (key : string) (b : bool)
    (setOpts : option SetOpts) :
  literal_of b (_setters this) = None ->
  exists e,
    serialize this (before ++ (key, JBool b) :: after) setOpts = Throw e
    /\ (before = [] ->
        e = TypeError "Invalid valid type passed to serialize()").
Proof.
  intros Hoff. unfold serialize.
  match goal with
  | |- context [serialize_loop ?t ?a ?o ?d ?h] =>
    destruct (serialize_loop_throws t a o) with (doneFirst := d)
      (hashString := h) as [e He]
  end.
  { exists key, (JBool b). eexists. split.
    - apply in_or_app. right. now left.
    - now apply serialize_value_boolean. }
  exists e. split; [exact He|].
  intros ->. cbn [app serialize_loop] in He.
  rewrite serialize_value_boolean in He by exact Hoff.
  congruence.
Qed.

(** C3.  On an instance made with [json: true], [serialize] of an object
    with a property whose value is a plain object throws: [_json] is
    [JSON_ALL], which is not [JSON_OBJ], and [serializeJsonObject] compares
    [this.json], which is undefined, with [JSON_ALL]. *)
Theorem serialize_object_json_true (key : string)
    (fields : list (string * value)) (setOpts : option SetOpts) :
  match constructor (options_json (JBool true)) with
  | Normal this =>
    _json this = Some JSON_ALL
    /\ json this = None
    /\ serializeJsonArray this = true
    /\ serializeJsonObject this = false
    /\ serialize this [(key, JObj fields)] setOpts
       = Throw (Error "Cannot serialize object when JSON is disabled")
  | Throw _ => False
  end.
Proof. simpl. repeat split; reflexivity. Qed.

(** C8.  With [json: true] and [autoArray: true], an array of strings and
    numbers is written as assignments one after the other and an array with
    any other item as the JSON text of the array; [{list: [1, "x"]}] gives
    ["#list=1=x"] and [{list: [1, {k: 2}]}] gives ["#list="] and the JSON
    text. *)
Theorem serialize_auto_array :
  match constructor (options_json_autoArray (JBool true) (JBool true)) with
  | Normal this =>
    serialize this [("list", JArr [JNum 1; JStr "x"])] None
    = Normal "#list=1=x"
    /\ serialize this [("list", JArr [JNum 1; JObj [("k", JNum 2)]])] None
       = Normal ("#list="
                 +:+ JSON_stringify (JArr [JNum 1; JObj [("k", JNum 2)]]))
    /\ forall name items,
        serialize this [(name, JArr items)] None
        = Normal (("#" +:+ name)
                  +:+ (if forallb string_or_number items
                       then serializeArray "=" items
                       else "=" +:+ JSON_stringify (JArr items)))
  | Throw _ => False
  end.
Proof.
  simpl. repeat split; try reflexivity.
  intros name items. unfold serialize; simpl.
  unfold serialize_value; simpl.
  now destruct (forallb string_or_number items).
Qed.

(** *** delete *)

Lemma lookup_overwrite (k k' : string) (v : value) (o : props) :
  lookup_prop k' (overwrite k v o)
  = if String.eqb k' k
    then match lookup_prop k o with Some _ => Some v | None => None end
    else lookup_prop k' o.
Proof.
  induction o as [|[k0 v0] o IH]; simpl.
  - now destruct (String.eqb k' k).
  - destruct (String.eqb k k0) eqn:E0; simpl.
    + apply String.eqb_eq in E0; subst k0.
      now destruct (String.eqb k' k).
    + rewrite IH. destruct (String.eqb k' k) eqn:E1; [|reflexivity].
      apply String.eqb_eq in E1; subst k'. now rewrite E0.
Qed.

Lemma lookup_insert_new (k k' : string) (v : value) (o : props) :
  lookup_prop k o = None ->
  lookup_prop k' (insert_new k v o)
  = if String.eqb k' k then Some v else lookup_prop k' o.
Proof.
  induction o as [|[k0 v0] o IH]; simpl; intros Hnone.
  - reflexivity.
  - destruct (String.eqb k k0) eqn:E0; [discriminate|].
    destruct (key_before k k0); simpl.
    + reflexivity.
    + rewrite IH by exact Hnone.
      destruct (String.eqb k' k) eqn:E1; [|reflexivity].
      apply String.eqb_eq in E1; subst k'. now rewrite E0.
Qed.

(** [o[k] = v], read back. *)
Lemma lookup_obj_set (k k' : string) (v : value) (o : props) :
  lookup_prop k' (obj_set k v o)
  = if String.eqb k' k then Some v else lookup_prop k' o.
Proof.
  unfold obj_set, has_own.
  destruct (lookup_prop k o) as [v0|] eqn:Hk.
  - rewrite lookup_overwrite, Hk. reflexivity.
  - now apply lookup_insert_new.
Qed.

(** [delete o[k]], read back. *)
Lemma lookup_obj_delete (k k' : string) (o : props) :
  lookup_prop k' (obj_delete k o)
  = if String.eqb k' k then None else lookup_prop k' o.
Proof.
  unfold obj_delete.
  induction o as [|[k0 v0] o IH]; simpl.
  - now destruct (String.eqb k' k).
  - destruct (String.eqb k k0) eqn:E0; simpl.
    + apply String.eqb_eq in E0; subst k0. rewrite IH.
      now destruct (String.eqb k' k).
    + rewrite IH. destruct (String.eqb k' k) eqn:E1; [|reflexivity].
      apply String.eqb_eq in E1; subst k'. now rewrite E0.
Qed.

Lemma lookup_all_remove (names : list string) (k : string) :
  forall u : props,
    lookup_prop k (fold_left (fun u p => obj_set p JUndefined u) names u)
    = if existsb (String.eqb k) names then Some JUndefined
      else lookup_prop k u.
Proof.
  induction names as [|p names IH]; intros u; simpl.
  - reflexivity.
  - rewrite IH, lookup_obj_set.
    destruct (String.eqb k p); simpl; [|reflexivity].
    now destruct (existsb (String.eqb k) names).
Qed.


(** *** getOpt *)




(** *** update *)

(** [getOpts] when the hash is present and is not the cached one. *)
Lemma getOpts_miss (arg : option GetOpts) (w : World) (hash : string) :
  let a := match arg with Some a => a | None => no_GetOpts end in
  hash = match go_hash a with
         | Some h => h
         | None => _getHash (self w) (host w)
         end ->
  hash <> EmptyString -> hash <> "#" ->
  cache_hit (self w) hash = None ->
  getOpts arg w
  = (length (heap w),
     {| self := set_lastOpts (Some (length (heap w)))
                  (set_lastHash (Some hash) (self w));
        heap := heap w
                ++ [read_segments (_getters (self w)) (_json (self w))
                      (if is_object (go_defaults a) then clone (go_defaults a)
                       else [])
                      (if starts_with_hash hash then substr1 hash else hash)];
        host := host w;
        setHash_calls := setHash_calls w |}).
Proof.
  intros a Hhash Hs Hh Hmiss. unfold getOpts. fold a.
  rewrite <- Hhash, (present_hash hash Hs Hh), Hmiss.
  reflexivity.
Qed.

(** [getOpts] leaves the host, the configuration and the calls of
    [_setHash] as they are, and returns an object of the heap. *)
Lemma getOpts_frame (arg : option GetOpts) (w : World) :
  let w1 := snd (getOpts arg w) in
  host w1 = host w
  /\ setHash_calls w1 = setHash_calls w
  /\ _setHash (self w1) = _setHash (self w)
  /\ _getters (self w1) = _getters (self w)
  /\ _setters (self w1) = _setters (self w)
  /\ _json (self w1) = _json (self w).
Proof.
  unfold getOpts.
  destruct (truthy_string _ && negb _); [|simpl; auto 10].
  destruct (cache_hit _ _); simpl; auto 10.
Qed.

Lemma cache_hit_lastOpts (i : Instance) (s : string) (l : loc) :
  cache_hit i s = Some l -> _lastOpts i = Some l.
Proof.
  unfold cache_hit. destruct (_lastHash i), (_lastOpts i); try discriminate.
  destruct (truthy_string _ && String.eqb _ _); congruence.
Qed.

Lemma getOpts_in_heap (arg : option GetOpts) (w : World) :
  cache_in_heap w ->
  (fst (getOpts arg w) < length (heap (snd (getOpts arg w))))%nat.
Proof.
  intros Hok. unfold getOpts.
  destruct (truthy_string _ && negb _).
  - destruct (cache_hit _ _) as [l|] eqn:Hc; simpl.
    + apply cache_hit_lastOpts in Hc. unfold cache_in_heap in Hok.
      now rewrite Hc in Hok.
    + rewrite length_app. simpl. lia.
  - simpl. rewrite length_app. simpl. lia.
Qed.

(** [update] when the merged object can be serialized. *)
Lemma update_commits (updates : props) (setOpts : option SetOpts)
    (arg : option GetOpts) (w : World) (text : string) :
  let current := fst (getOpts arg w) in
  let w1 := snd (getOpts arg w) in
  let merged := fold_left apply_update updates (deref w1 current) in
  serialize (self w1) merged setOpts = Normal text ->
  (current < length (heap w1))%nat ->
  update updates setOpts arg w
  = (Normal tt,
     {| self := set_lastOpts (Some current)
                  (set_lastHash (Some text) (self w1));
        heap := <[current := merged]> (heap w1);
        host := _setHash (self w1) text (host w1);
        setHash_calls := setHash_calls w1 ++ [text] |}).
Proof.
  intros current w1 merged Htext Hin. unfold update.
  destruct (getOpts arg w) as [l w'] eqn:Hg.
  simpl in current, w1. subst current w1. fold merged.
  unfold replace.
  rewrite (deref_store l merged w' Hin).
  change (self (store l merged w')) with (self w').
  rewrite Htext. reflexivity.
Qed.

Lemma lookup_prop_absent (k : string) (o : props) :
  k ∉ keys o -> lookup_prop k o = None.
Proof.
  induction o as [|[k0 v0] o IH]; simpl; intros Hk.
  - reflexivity.
  - apply not_elem_of_cons in Hk as [Hne Hk].
    apply String.eqb_neq in Hne. rewrite Hne. now apply IH.
Qed.





Lemma serialize_loop_first (this : Instance) (autoArray_ : value)
    (obj : props) :
  forall (doneFirst : bool) (c : ascii) (hashString text : string),
    serialize_loop this autoArray_ obj doneFirst (String c hashString)
    = Normal text ->
    exists rest, text = String c rest.
Proof.
  induction obj as [|[key val] obj IH]; intros doneFirst c hashString text;
    simpl.
  - intros [= <-]. now exists hashString.
  - destruct (serialize_value this autoArray_ val) as [t|]; [|discriminate].
    destruct doneFirst; apply IH.
Qed.

(** What [serialize] returns starts with the hash character. *)
Lemma serialize_starts_with_hash (this : Instance) (obj : props)
    (setOpts : option SetOpts) (text : string) :
  serialize this obj setOpts = Normal text ->
  exists rest, text = String "#" rest.
Proof. unfold serialize. apply serialize_loop_first. Qed.




(** *** Strings *)

Lemma append_cons (c : ascii) (s t : string) :
  String c s +:+ t = String c (s +:+ t).
Proof. reflexivity. Qed.

Lemma append_nil_l (s : string) : EmptyString +:+ s = s.
Proof. reflexivity. Qed.

Lemma append_nil_r (s : string) : s +:+ EmptyString = s.
Proof.
  induction s as [|c s IH]; [reflexivity|].
  now rewrite append_cons, IH.
Qed.

Lemma append_assoc (s t u : string) : (s +:+ t) +:+ u = s +:+ (t +:+ u).
Proof.
  induction s as [|c s IH]; [reflexivity|].
  now rewrite !append_cons, IH.
Qed.

Lemma has_char_app (c : ascii) (s t : string) :
  has_char c (s +:+ t) = has_char c s || has_char c t.
Proof.
  induction s as [|a s IH]; [reflexivity|].
  rewrite append_cons. simpl. rewrite IH. now rewrite orb_assoc.
Qed.

Lemma prefix_char (c a : ascii) (s : string) :
  String.prefix (String c EmptyString) (String a s) = Ascii.eqb a c.
Proof.
  simpl. destruct (ascii_dec c a) as [->|Hne].
  - rewrite Ascii.eqb_refl. now destruct s.
  - symmetry. apply Ascii.eqb_neq. congruence.
Qed.

(** Splitting by one character: a piece without the character, then the
    character, then the rest. *)
Lemma split_from_piece (c : ascii) (seg rest : string) :
  has_char c seg = false ->
  split_from (String c EmptyString) 0 (seg +:+ String c rest)
  = seg :: split_from (String c EmptyString) 0 rest.
Proof.
  induction seg as [|a seg IH]; intros Hfree.
  - rewrite append_nil_l.
    cbn [split_from]. rewrite prefix_char, Ascii.eqb_refl. reflexivity.
  - simpl in Hfree. apply orb_false_iff in Hfree as [Ha Hseg].
    rewrite append_cons. cbn [split_from].
    rewrite prefix_char, Ha, (IH Hseg). reflexivity.
Qed.

Lemma split_from_last (c : ascii) (seg : string) :
  has_char c seg = false ->
  split_from (String c EmptyString) 0 seg = [seg].
Proof.
  induction seg as [|a seg IH]; intros Hfree.
  - reflexivity.
  - simpl in Hfree. apply orb_false_iff in Hfree as [Ha Hseg].
    cbn [split_from]. rewrite prefix_char, Ha, (IH Hseg). reflexivity.
Qed.


(** *** The text of a number *)

Lemma numeric_char_apart (c : ascii) :
  numeric_char c = true ->
  Ascii.eqb (lower c) "t" || Ascii.eqb (lower c) "y"
  || Ascii.eqb (lower c) "f" || Ascii.eqb (lower c) "n"
  || Ascii.eqb c ";" || Ascii.eqb c "=" = false.
Proof.
  destruct c as [[] [] [] [] [] [] [] []]; vm_compute; congruence.
Qed.

Lemma numeric_uint (u : Decimal.uint) :
  numeric (NilEmpty.string_of_uint u) = true.
Proof. induction u; simpl; auto. Qed.

Lemma numeric_Number_toString (n : Z) : numeric (Number_toString n) = true.
Proof.
  unfold Number_toString, NilZero.string_of_int, NilZero.string_of_uint.
  destruct (Z.to_int n) as [u|u]; destruct u;
    try reflexivity; apply (numeric_uint (_ u)) || (simpl; apply numeric_uint).
Qed.

Lemma numeric_has_char (s : string) :
  numeric s = true -> has_char ";" s = false /\ has_char "=" s = false.
Proof.
  induction s as [|c s IH]; simpl; [auto|].
  intros [Hc Hs]%andb_true_iff.
  destruct (IH Hs) as [-> ->].
  pose proof (numeric_char_apart c Hc) as Hap.
  repeat (apply orb_false_iff in Hap as [Hap ?]).
  rewrite !orb_false_r. auto.
Qed.

Lemma numeric_plain (s : string) : numeric s = true -> plain s = true.
Proof.
  intros Hs. unfold plain.
  now destruct (numeric_has_char s Hs) as [-> ->].
Qed.

Lemma numeric_no_word (s : string) :
  numeric s = true ->
  re_test true_re s = false /\ re_test false_re s = false.
Proof.
  destruct s as [|c s]; [now split|].
  simpl. intros [Hc _]%andb_true_iff.
  pose proof (numeric_char_apart c Hc) as Hap.
  repeat (apply orb_false_iff in Hap as [Hap ?]).
  unfold String.eqb; fold String.eqb.
  repeat match goal with
         | H : Ascii.eqb (lower c) _ = false |- _ => rewrite H
         end.
  now split.
Qed.


(** *** The round trip *)

Lemma serialize_value_literal (this : Instance) (autoArray_ : value)
    (v : value) :
  _setters this = default_setters ->
  reads_back v = true ->
  serialize_value this autoArray_ v = Normal (literal_text v).
Proof.
  intros Hs Hv. unfold serialize_value. rewrite Hs.
  destruct v as [| |[|]| | | | | |]; try discriminate; reflexivity.
Qed.

Lemma serialize_loop_joined (this : Instance) (autoArray_ : value)
    (m : props) :
  _setters this = default_setters ->
  Forall (fun entry => reads_back (snd entry) = true) m ->
  forall doneFirst hashString,
    serialize_loop this autoArray_ m doneFirst hashString
    = Normal (hashString +:+ joined doneFirst m).
Proof.
  intros Hs Hm.
  induction Hm as [|[key val] m Hval Hm IH]; intros doneFirst hashString.
  - simpl. now rewrite append_nil_r.
  - cbn [serialize_loop joined]. simpl in Hval.
    rewrite (serialize_value_literal this autoArray_ val Hs Hval), IH, Hs.
    unfold entry_text. cbn [fst snd set_separate default_setters].
    destruct doneFirst; now rewrite ?append_nil_l, !append_assoc.
Qed.

Lemma has_char_entry_text (c : ascii) (entry : string * value) :
  plain (fst entry) = true -> reads_back (snd entry) = true ->
  c = ";"%char \/ (c = "="%char /\ snd entry = JNull) ->
  has_char c (entry_text entry) = false.
Proof.
  destruct entry as [key val]. unfold entry_text, plain. simpl.
  intros [Hk1 Hk2]%andb_true_iff Hv Hc.
  apply negb_true_iff in Hk1, Hk2.
  rewrite has_char_app.
  destruct Hc as [->|[-> ->]]; [|now rewrite Hk2].
  rewrite Hk1. simpl.
  destruct val as [| |[|]|n|s| | | |]; try discriminate; try reflexivity.
  - simpl. now destruct (numeric_has_char _ (numeric_Number_toString n)).
  - simpl. unfold plain in Hv.
    apply andb_true_iff in Hv as [[[Hv _]%andb_true_iff _]%andb_true_iff _].
    now apply negb_true_iff in Hv.
Qed.

(** Splitting the joined text gives the texts of the entries back. *)
Lemma split_joined (entry : string * value) (m : props) :
  Forall (fun e => plain (fst e) = true /\ reads_back (snd e) = true)
    (entry :: m) ->
  split_from ";" 0 (entry_text entry +:+ joined true m)
  = map entry_text (entry :: m).
Proof.
  revert entry. induction m as [|entry' m IH]; intros entry Hall.
  - apply Forall_cons in Hall as [[Hk Hv] _].
    cbn [joined]. rewrite append_nil_r. simpl.
    apply split_from_last. apply has_char_entry_text; auto.
  - apply Forall_cons in Hall as [[Hk Hv] Hall].
    cbn [joined map].
    change (";" +:+ (entry_text entry' +:+ joined true m))
      with (String ";" (entry_text entry' +:+ joined true m)).
    rewrite split_from_piece by (apply has_char_entry_text; auto).
    now rewrite (IH entry' Hall).
Qed.

(** Under the default getters, the text of an entry is read as the entry. *)
Lemma read_segment_entry (hashOpts : props) (entry : string * value) :
  plain (fst entry) = true -> reads_back (snd entry) = true ->
  read_segment (get_assign default_getters) None
    (get_true default_getters) (get_false default_getters) hashOpts
    (entry_text entry)
  = obj_set (fst entry) (as_read (snd entry)) hashOpts.
Proof.
  destruct entry as [key val]. simpl. intros Hk Hv.
  assert (Hkey : has_char "=" key = false).
  { unfold plain in Hk. apply andb_true_iff in Hk as [_ Hk].
    now apply negb_true_iff in Hk. }
  unfold read_segment, entry_text. cbn [split_by fst snd].
  unfold split_string. cbn [String.eqb].
  destruct val as [| |b|n|s| | | |]; try discriminate.
  - cbn [literal_text]. rewrite append_nil_r, split_from_last by exact Hkey.
    reflexivity.
  - assert (Hsplit : forall t, has_char "=" t = false ->
               split_from "=" 0 (key +:+ String "=" t) = [key; t]).
    { intros t Ht. rewrite split_from_piece by exact Hkey.
      now rewrite split_from_last. }
    destruct b; cbn [literal_text]; rewrite Hsplit by reflexivity;
      reflexivity.
  - cbn [literal_text text_of].
    change ("=" +:+ Number_toString n) with (String "=" (Number_toString n)).
    pose proof (numeric_Number_toString n) as Hnum.
    destruct (numeric_has_char _ Hnum) as [_ Heq].
    destruct (numeric_no_word _ Hnum) as [Ht Hf].
    rewrite split_from_piece by exact Hkey.
    rewrite split_from_last by exact Heq.
    unfold getVal, matcher_test. now rewrite Ht, Hf.
  - cbn [literal_text text_of].
    change ("=" +:+ s) with (String "=" s).
    cbn [reads_back] in Hv.
    apply andb_true_iff in Hv as [[Hp Ht]%andb_true_iff Hf].
    apply negb_true_iff in Ht, Hf.
    unfold plain in Hp. apply andb_true_iff in Hp as [_ Hp].
    apply negb_true_iff in Hp.
    rewrite split_from_piece by exact Hkey.
    rewrite split_from_last by exact Hp.
    unfold getVal, matcher_test. now rewrite Ht, Hf.
Qed.

Lemma read_segments_entries (m : props) :
  Forall (fun e => plain (fst e) = true /\ reads_back (snd e) = true) m ->
  forall hashOpts,
    fold_left
      (read_segment (get_assign default_getters) None
         (get_true default_getters) (get_false default_getters))
      (map entry_text m) hashOpts
    = fold_left (fun o e => obj_set (fst e) (as_read (snd e)) o) m hashOpts.
Proof.
  induction 1 as [|entry m [Hk Hv] Hm IH]; intros hashOpts; simpl.
  - reflexivity.
  - rewrite read_segment_entry by assumption. apply IH.
Qed.


(** *** Building an object in its order of enumeration *)

Lemma key_le_trans (x y z : string) :
  key_le x y = true -> key_le y z = true -> key_le x z = true.
Proof.
  unfold key_le.
  destruct (array_index x), (array_index y), (array_index z);
    try congruence.
  rewrite !N.ltb_lt. lia.
Qed.

Lemma key_le_not_before (x y : string) :
  key_le x y = true -> key_before y x = false.
Proof.
  unfold key_le, key_before.
  destruct (array_index x), (array_index y); try congruence.
  rewrite N.ltb_lt, N.ltb_ge. lia.
Qed.

Lemma enumeration_order_tail (k : string) (ks : list string) :
  enumeration_order (k :: ks) = true -> enumeration_order ks = true.
Proof.
  destruct ks as [|k' ks]; [reflexivity|].
  cbn [enumeration_order]. now intros [_ H]%andb_true_iff.
Qed.

Lemma enumeration_order_head (ks : list string) :
  forall k, enumeration_order (k :: ks) = true ->
            forall y, y ∈ ks -> key_le k y = true.
Proof.
  induction ks as [|k' ks IH]; intros k Hord y Hy.
  - now apply elem_of_nil in Hy.
  - cbn [enumeration_order] in Hord.
    apply andb_true_iff in Hord as [Hle Hord].
    apply elem_of_cons in Hy as [->|Hy]; [exact Hle|].
    apply (key_le_trans k k' y Hle). now apply IH.
Qed.

Lemma enumeration_order_before (l1 l2 : list string) (y : string) :
  enumeration_order (l1 ++ y :: l2) = true ->
  forall x, x ∈ l1 -> key_le x y = true.
Proof.
  induction l1 as [|k l1 IH]; intros Hord x Hx.
  - now apply elem_of_nil in Hx.
  - rewrite <- app_comm_cons in Hord.
    apply elem_of_cons in Hx as [->|Hx].
    + apply (enumeration_order_head _ _ Hord).
      apply elem_of_app. right. now left.
    + apply IH; [|exact Hx]. now apply enumeration_order_tail in Hord.
Qed.

Lemma insert_new_last (k : string) (v : value) (o : props) :
  (forall x, x ∈ keys o -> key_before k x = false) ->
  insert_new k v o = o ++ [(k, v)].
Proof.
  induction o as [|[k' v'] o IH]; intros Hlast; simpl.
  - reflexivity.
  - rewrite (Hlast k') by (simpl; now left).
    rewrite IH; [reflexivity|].
    intros x Hx. apply Hlast. simpl. now right.
Qed.

(** Setting the properties of a well-formed object one after the other, in
    its order, builds the object itself. *)
Lemma rebuild (f : value -> value) (todo : props) :
  forall done : props,
    NoDup (keys done ++ keys todo) ->
    enumeration_order (keys done ++ keys todo) = true ->
    fold_left (fun o e => obj_set (fst e) (f (snd e)) o) todo done
    = done ++ map (fun e => (fst e, f (snd e))) todo.
Proof.
  induction todo as [|[k v] todo IH]; intros done Hnd Hord; simpl.
  - now rewrite app_nil_r.
  - simpl in Hnd, Hord.
    assert (Hset : obj_set k (f v) done = done ++ [(k, f v)]).
    { unfold obj_set, has_own.
      apply NoDup_app in Hnd as (_ & Hfresh & _).
      rewrite lookup_prop_absent.
      - apply insert_new_last. intros x Hx.
        apply key_le_not_before.
        now apply (enumeration_order_before _ _ _ Hord).
      - intros Hk. apply (Hfresh k Hk). now left. }
    rewrite Hset, IH.
    + now rewrite <- app_assoc.
    + unfold keys in *. rewrite map_app. simpl.
      now rewrite <- app_assoc.
    + unfold keys in *. rewrite map_app. simpl.
      now rewrite <- app_assoc.
Qed.

Lemma append_eq_empty (s t : string) :
  s +:+ t = EmptyString -> s = EmptyString /\ t = EmptyString.
Proof.
  destruct s; [rewrite append_nil_l; now intros ->|].
  rewrite append_cons. discriminate.
Qed.

Lemma literal_text_empty (v : value) :
  literal_text v = EmptyString -> v = JNull.
Proof.
  destruct v as [| |[|]| | | | | |]; try reflexivity; discriminate.
Qed.

(** The only objects whose text is the lone hash character. *)
Lemma joined_empty (m : props) :
  joined false m = EmptyString -> m = [] \/ m = [(EmptyString, JNull)].
Proof.
  destruct m as [|[k v] m]; [now left|]. right.
  cbn [joined] in H. rewrite append_nil_l in H.
  apply append_eq_empty in H as [Hentry Hrest].
  unfold entry_text in Hentry. simpl in Hentry.
  apply append_eq_empty in Hentry as [-> Hv].
  apply literal_text_empty in Hv as ->.
  destruct m as [|e m]; [reflexivity|discriminate].
Qed.

(** C1, as the code has it.  Under the default getters and setters, without
    JSON, on an instance whose cache does not hold the text: for an object
    whose keys have no [";"] and no ["="] and are not [__proto__], that is
    not the lone flag with the empty name, and whose values are [null],
    booleans, safe integers, or strings that have no [";"] and no ["="] and
    are not one of the words for true and false, [serialize] returns a text
    and [getOpts] with that text as hash returns the same keys in the same
    order, with the same values but for a number, which comes back as the
    string of its digits; so the object itself comes back when it has no
    number. *)
Theorem roundtrip_default (m : props) (setOpts : option SetOpts)
    (w : World) :
  _getters (self w) = default_getters ->
  _setters (self w) = default_setters ->
  _json (self w) = None ->
  well_formed m ->
  Forall (fun e => plain (fst e) = true /\ reads_back (snd e) = true) m ->
  Forall (fun e => ordinary (fst e) = true /\ in_range (snd e) = true) m ->
  m <> [(EmptyString, JNull)] ->
  exists text,
    serialize (self w) m setOpts = Normal text
    /\ (cache_hit (self w) text = None ->
        let decoded := getOpts (Some (options_hash text)) w in
        deref (snd decoded) (fst decoded)
        = map (fun e => (fst e, as_read (snd e))) m
        /\ (Forall (fun e => typeof (snd e) <> T_N) m ->
            deref (snd decoded) (fst decoded) = m)).
Proof.
  intros Hg Hs Hj [Hnd Hord] Hm _ Hflag.
  exists (String "#" (joined false m)). split.
  { unfold serialize. rewrite serialize_loop_joined; [reflexivity|exact Hs|].
    eapply Forall_impl; [exact Hm|]. now intros e [_ He]. }
  intros Hmiss decoded.
  assert (Hread : deref (snd decoded) (fst decoded)
                  = map (fun e => (fst e, as_read (snd e))) m).
  { subst decoded. destruct m as [|entry m].
    - apply deref_alloc.
    - rewrite (getOpts_miss _ w (String "#" (joined false (entry :: m))));
        try reflexivity; try discriminate; try exact Hmiss.
      + cbn [fst snd]. erewrite deref_fresh by reflexivity.
        cbn [starts_with_hash substr1 options_hash go_defaults is_object
             typeof type_name_eqb andb].
        rewrite Ascii.eqb_refl, Hg, Hj.
        unfold read_segments. cbn [split_by get_separate default_getters].
        unfold split_string. cbn [String.eqb joined].
        rewrite append_nil_l, split_joined by exact Hm.
        rewrite read_segments_entries by exact Hm.
        now rewrite rebuild.
      + intros [= Hempty].
        change (joined false (entry :: m) = EmptyString) in Hempty.
        apply joined_empty in Hempty as [?|?];
          [discriminate|contradiction]. }
  split; [exact Hread|].
  intros Hnum. rewrite Hread. clear -Hnum.
  induction Hnum as [|[k v] m Hv Hnum IH]; [reflexivity|].
  simpl. rewrite IH. destruct v; try reflexivity. now simpl in Hv.
Qed.

End Properties.


(** ** Examples on the page host *)

Section Examples.

#[local] Existing Instance page.

Lemma constructor_page_instance :
  constructor no_Options = Normal (page_instance false true).
Proof. reflexivity. Qed.

Lemma setSetter_page_instance_without :
  setSetter "true" (JBool false) (page_instance false true)
  = Normal (page_instance_without "true")
  /\ set_true (_setters (page_instance_without "true")) = None.
Proof. split; reflexivity. Qed.

(** [{a: 1}] is written as ["#a=1"], which is read as [{a: "1"}]: the
    number comes back as a string. *)
Lemma roundtrip_number_counterexample :
  let this := page_instance false true in
  let m := [("a", JNum 1)] in
  constructor no_Options = Normal this
  /\ serialize this m None = Normal "#a=1"
  /\ (let decoded :=
        getOpts (Some (options_hash "#a=1")) (page_world this [] "") in
      deref (snd decoded) (fst decoded) = [("a", JStr "1")]
      /\ deref (snd decoded) (fst decoded) <> m).
Proof.
  repeat split; try reflexivity. vm_compute. discriminate.
Qed.

(** The other objects of scalars that do not come back: a string that is a
    word for true, a string with the assignment character, a key with the
    separator, and the lone flag with the empty name. *)
Lemma roundtrip_limits :
  let this := page_instance false true in
  let back (m : props) :=
    match serialize this m None with
    | Normal text =>
      let decoded :=
        getOpts (Some (options_hash text)) (page_world this [] "") in
      Some (deref (snd decoded) (fst decoded))
    | Throw _ => None
    end in
  back [("a", JStr "yes")] = Some [("a", JBool true)]
  /\ back [("a", JStr "x=y")] = Some [("a", JArr [JStr "x"; JStr "y"])]
  /\ back [("a;b", JNull)] = Some [("a", JNull); ("b", JNull)]
  /\ back [(EmptyString, JNull)] = Some [].
Proof. repeat split; reflexivity. Qed.

Lemma roundtrip_default_witness :
  let w := page_world (page_instance false true) [] "" in
  let m := [("7", JNum 12); ("a", JStr "x"); ("flag", JNull);
            ("on", JBool true); ("off", JBool false)] in
  _getters (self w) = default_getters
  /\ _setters (self w) = default_setters
  /\ _json (self w) = None
  /\ well_formed m
  /\ Forall (fun e => plain (fst e) = true /\ reads_back (snd e) = true) m
  /\ Forall (fun e => ordinary (fst e) = true /\ in_range (snd e) = true) m
  /\ m <> [(EmptyString, JNull)]
  /\ exists text,
      serialize (self w) m None = Normal text
      /\ (cache_hit (self w) text = None ->
          let decoded := getOpts (Some (options_hash text)) w in
          deref (snd decoded) (fst decoded)
          = map (fun e => (fst e, as_read (snd e))) m
          /\ (Forall (fun e => typeof (snd e) <> T_N) m ->
              deref (snd decoded) (fst decoded) = m)).
Proof.
  intros w m.
  assert (Hwf : well_formed m).
  { split; [|reflexivity].
    apply (bool_decide_unpack (NoDup (keys m))). vm_compute. exact I. }
  assert (Hall : Forall (fun e => plain (fst e) = true
                                  /\ reads_back (snd e) = true) m).
  { unfold m. repeat (apply Forall_cons; split; [split; reflexivity|]).
    apply Forall_nil_2. }
  assert (Hdom : Forall (fun e => ordinary (fst e) = true
                                  /\ in_range (snd e) = true) m).
  { unfold m. repeat (apply Forall_cons; split; [split; reflexivity|]).
    apply Forall_nil_2. }
  assert (Hflag : m <> [(EmptyString, JNull)]) by discriminate.
  do 7 (split; [reflexivity || assumption|]).
  exact (roundtrip_default m None w eq_refl eq_refl eq_refl Hwf Hall Hdom
           Hflag).
Defined.

(** With the setter for [true] set to [false], [{a: true}] is not written
    as the flag ["#a"]: [serialize] throws. *)
Lemma serialize_boolean_literal_off_counterexample :
  let this := page_instance_without "true" in
  setSetter "true" (JBool false) (page_instance false true) = Normal this
  /\ serialize this [("a", JBool true)] None
     = Throw (TypeError "Invalid valid type passed to serialize()")
  /\ serialize this [("a", JBool true)] None <> Normal "#a".
Proof. repeat split; try reflexivity. discriminate. Qed.

Lemma serialize_boolean_literal_off_witness :
  let this := page_instance_without "true" in
  literal_of true (_setters this) = None
  /\ exists e,
      serialize this ([("n", JNull)] ++ ("a", JBool true) :: []) None
      = Throw e
      /\ ([("n", JNull)] = [] ->
          e = TypeError "Invalid valid type passed to serialize()").
Proof.
  intros this. split; [reflexivity|].
  exact (serialize_boolean_literal_off this [("n", JNull)] [] "a" true None
           eq_refl).
Defined.

Lemma getOpts_twice_same_object_witness :
  let a := options_hash "#a=1;b" in
  let w := page_world (page_instance false true) [] "" in
  let first := getOpts (Some a) w in
  let second := getOpts (Some a) (snd first) in
  go_hash a = Some "#a=1;b"
  /\ "#a=1;b" <> EmptyString /\ "#a=1;b" <> "#"
  /\ fst second = fst first
  /\ cache_hit (self (snd first)) "#a=1;b" = Some (fst first)
  /\ snd second = snd first
  /\ deref (snd second) (fst second) = deref (snd first) (fst first).
Proof.
  intros a w first second.
  assert (H1 : "#a=1;b" <> EmptyString) by discriminate.
  assert (H2 : "#a=1;b" <> "#") by discriminate.
  do 3 (split; [reflexivity || assumption|]).
  exact (getOpts_twice_same_object a "#a=1;b" w eq_refl H1 H2).
Defined.

Lemma getOpts_hit_ignores_defaults_witness :
  let a1 := options_hash "#a=1;b" in
  let a2 :=
    {| go_defaults := JObj [("z", JNum 9)]; go_hash := Some "#a=1;b";
       go_default := JUndefined; go_shortOpt := None |} in
  let w := page_world (page_instance false true) [] "" in
  let first := getOpts (Some a1) w in
  go_hash a1 = Some "#a=1;b" /\ go_hash a2 = Some "#a=1;b"
  /\ "#a=1;b" <> EmptyString /\ "#a=1;b" <> "#"
  /\ getOpts (Some a2) (snd first) = (fst first, snd first)
  /\ deref (snd (getOpts (Some a2) (snd first)))
       (fst (getOpts (Some a2) (snd first)))
     = deref (snd first) (fst first).
Proof.
  intros a1 a2 w first.
  assert (H1 : "#a=1;b" <> EmptyString) by discriminate.
  assert (H2 : "#a=1;b" <> "#") by discriminate.
  do 4 (split; [reflexivity || assumption|]).
  exact (getOpts_hit_ignores_defaults a1 a2 "#a=1;b" w eq_refl eq_refl H1 H2).
Defined.

Lemma replace_object_without_json_witness :
  let w := page_world (page_instance false true)
             [[("x", JObj [("k", JNum 1)])]] "#old" in
  _json (self w) = None /\ json (self w) = None
  /\ In ("x", JObj [("k", JNum 1)]) (deref w 0%nat)
  /\ exists e,
      replace 0%nat None w = (Throw e, w)
      /\ setHash_calls (snd (replace 0%nat None w)) = setHash_calls w
      /\ _lastHash (self (snd (replace 0%nat None w))) = _lastHash (self w)
      /\ _lastOpts (self (snd (replace 0%nat None w))) = _lastOpts (self w).
Proof.
  intros w.
  assert (Hin : In ("x", JObj [("k", JNum 1)]) (deref w 0%nat))
    by (left; reflexivity).
  do 3 (split; [reflexivity || assumption|]).
  exact (replace_object_without_json 0%nat None w "x" [("k", JNum 1)]
           eq_refl eq_refl Hin).
Defined.





End Examples.

(** ** Further properties *)

Section Further.

Context {the_host : Host}.


(** *** getOpts: the empty hash, the heap and the cache *)

(** [getOpts] in terms of the hash it works on. *)
Lemma getOpts_cases (arg : option GetOpts) (w : World) :
  getOpts arg w
  = if truthy_string (hash_of arg w) && negb (String.eqb (hash_of arg w) "#")
    then match cache_hit (self w) (hash_of arg w) with
         | Some opts => (opts, w)
         | None =>
           (length (heap w),
            {| self := set_lastOpts (Some (length (heap w)))
                         (set_lastHash (Some (hash_of arg w)) (self w));
               heap := heap w
                       ++ [read_segments (_getters (self w)) (_json (self w))
                             (seed_of arg) (stripped (hash_of arg w))];
               host := host w;
               setHash_calls := setHash_calls w |})
         end
    else alloc (seed_of arg) w.
Proof. reflexivity. Qed.

(** What a miss returns: the segments of the hash, read into the seed. *)
Lemma getOpts_miss_reads (arg : option GetOpts) (w : World) :
  hash_of arg w <> EmptyString -> hash_of arg w <> "#" ->
  cache_hit (self w) (hash_of arg w) = None ->
  fst (getOpts arg w) = length (heap w)
  /\ deref (snd (getOpts arg w)) (fst (getOpts arg w))
     = read_segments (_getters (self w)) (_json (self w)) (seed_of arg)
         (stripped (hash_of arg w)).
Proof.
  intros Hs Hh Hmiss.
  rewrite getOpts_cases, (present_hash _ Hs Hh), Hmiss. cbn [fst snd].
  split; [reflexivity|]. now apply deref_fresh.
Qed.

(** X1.  For a hash that is empty or is the lone hash character, [getOpts]
    returns a new object each time, with the properties of the clone of the
    defaults (none without defaults), and leaves the instance, and so the
    cache, as it was. *)
Theorem getOpts_empty_hash (arg : option GetOpts) (w : World) :
  hash_of arg w = EmptyString \/ hash_of arg w = "#" ->
  let first := getOpts arg w in
  let second := getOpts arg (snd first) in
  fst first = length (heap w)
  /\ deref (snd first) (fst first) = seed_of arg
  /\ self (snd first) = self w
  /\ host (snd first) = host w
  /\ fst second <> fst first
  /\ deref (snd second) (fst second) = seed_of arg
  /\ deref (snd second) (fst first) = seed_of arg.
Proof.
  intros Hempty first second.
  assert (Hfirst : first = alloc (seed_of arg) w).
  { unfold first. rewrite getOpts_cases.
    now destruct Hempty as [-> | ->]. }
  assert (Hsecond : second = alloc (seed_of arg) (snd first)).
  { unfold second. rewrite getOpts_cases.
    replace (hash_of arg first.2) with (hash_of arg w)
      by now rewrite Hfirst.
    now destruct Hempty as [-> | ->]. }
  rewrite Hsecond, Hfirst. unfold alloc, deref. cbn [fst snd heap self host].
  rewrite length_app. cbn [length].
  repeat split.
  - now rewrite list_lookup_middle.
  - lia.
  - rewrite list_lookup_middle; [reflexivity|].
    rewrite length_app. simpl. lia.
  - rewrite <- app_assoc. cbn [app]. now rewrite list_lookup_middle.
Qed.

(** [getOpts] adds at most one object to the heap. *)
Lemma getOpts_heap_grows (arg : option GetOpts) (w : World) :
  exists added,
    heap (snd (getOpts arg w)) = heap w ++ added /\ (length added <= 1)%nat.
Proof.
  rewrite getOpts_cases.
  destruct (truthy_string _ && negb _).
  - destruct (cache_hit _ _); cbn [snd heap].
    + exists []. split; [now rewrite app_nil_r|simpl; lia].
    + eexists [_]. split; [reflexivity|]. simpl. lia.
  - unfold alloc. cbn [snd heap]. eexists [_]. split; [reflexivity|].
    simpl. lia.
Qed.

(** X2.  [getOpts] adds at most one object to the heap and changes no
    object that is there; the host, the calls of [_setHash] and the
    configuration stay as they were. *)
Theorem getOpts_only_allocates (arg : option GetOpts) (w : World) :
  let w1 := snd (getOpts arg w) in
  (exists added, heap w1 = heap w ++ added /\ (length added <= 1)%nat)
  /\ (forall l, (l < length (heap w))%nat -> deref w1 l = deref w l)
  /\ host w1 = host w
  /\ setHash_calls w1 = setHash_calls w
  /\ _getters (self w1) = _getters (self w)
  /\ _setters (self w1) = _setters (self w)
  /\ _json (self w1) = _json (self w)
  /\ shortOpt (self w1) = shortOpt (self w)
  /\ autoArray (self w1) = autoArray (self w).
Proof.
  intros w1.
  pose proof (getOpts_heap_grows arg w) as Hheap. fold w1 in Hheap.
  split; [exact Hheap|]. split.
  { destruct Hheap as (added & Hadded & _).
    intros l Hl. unfold deref. rewrite Hadded. now rewrite lookup_app_l. }
  unfold w1. rewrite getOpts_cases.
  destruct (truthy_string _ && negb _); [|repeat split].
  destruct (cache_hit _ _); repeat split.
Qed.

Lemma cache_hit_lastHash (i : Instance) (s : string) (l : loc) :
  cache_hit i s = Some l -> _lastHash i = Some s.
Proof.
  unfold cache_hit. destruct (_lastHash i) as [last|]; [|discriminate].
  destruct (_lastOpts i); [|discriminate].
  destruct (truthy_string last); [|discriminate]. simpl.
  destruct (String.eqb_spec last s); [now subst|discriminate].
Qed.

(** X3.  The cache holds one hash.  After [getOpts] with one hash and then
    with another, [getOpts] with the first hash again does not find the
    object of the first call: it returns a new object. *)
Theorem getOpts_cache_holds_one (a1 a2 : GetOpts) (s1 s2 : string)
    (w : World) :
  go_hash a1 = Some s1 -> go_hash a2 = Some s2 -> s1 <> s2 ->
  s1 <> EmptyString -> s1 <> "#" -> s2 <> EmptyString -> s2 <> "#" ->
  cache_in_heap w ->
  let first := getOpts (Some a1) w in
  let second := getOpts (Some a2) (snd first) in
  let third := getOpts (Some a1) (snd second) in
  cache_hit (self (snd second)) s1 = None
  /\ fst third = length (heap (snd second))
  /\ fst third <> fst first.
Proof.
  intros H1 H2 Hne Hs1 Hh1 Hs2 Hh2 Hok first second third.
  pose proof (getOpts_fills_cache a2 s2 (snd first) H2 Hs2 Hh2) as Hc2.
  fold second in Hc2. apply cache_hit_lastHash in Hc2.
  assert (Hmiss : cache_hit (self (snd second)) s1 = None).
  { unfold cache_hit. rewrite Hc2.
    destruct (_lastOpts (self second.2)); [|reflexivity].
    apply String.eqb_neq in Hne. rewrite String.eqb_sym in Hne.
    now rewrite Hne, andb_false_r. }
  assert (Hthird : fst third = length (heap (snd second))).
  { unfold third.
    apply (getOpts_miss_reads (Some a1) (snd second));
      unfold hash_of; cbn [go_hash]; rewrite H1; assumption. }
  repeat split; [exact Hmiss|exact Hthird|].
  rewrite Hthird.
  pose proof (getOpts_in_heap (Some a1) w Hok) as Hin. fold first in Hin.
  destruct (getOpts_heap_grows (Some a2) (snd first))
    as (added & Hadded & _).
  fold second in Hadded. rewrite Hadded, length_app. lia.
Qed.


(** *** getOpts: what the segments set *)

Lemma read_segment_sets (ass : Splitter) (jc : option JsonPattern)
    (tv fv : Matcher) (hashOpts : props) (segment : string) :
  read_segment ass jc tv fv hashOpts segment
  = obj_set (segment_name ass segment)
      (segment_value ass jc tv fv segment) hashOpts.
Proof.
  unfold read_segment, segment_name, segment_value.
  now destruct (split_by ass segment) as [|a [|b [|c rest]]].
Qed.

Lemma lookup_read_unnamed (ass : Splitter) (jc : option JsonPattern)
    (tv fv : Matcher) (k : string) (segments : list string) :
  Forall (fun segment => segment_name ass segment <> k) segments ->
  forall hashOpts,
    lookup_prop k (fold_left (read_segment ass jc tv fv) segments hashOpts)
    = lookup_prop k hashOpts.
Proof.
  induction 1 as [|segment segments Hne _ IH]; intros hashOpts; simpl.
  - reflexivity.
  - rewrite IH, read_segment_sets, lookup_obj_set.
    destruct (String.eqb_spec k (segment_name ass segment)); congruence.
Qed.

(** X4.  A key that no segment of the hash names has, in the object that
    [getOpts] reads, the value it has in the clone of the defaults, and is
    absent when it is absent there. *)
Theorem getOpts_keeps_unnamed (arg : option GetOpts) (w : World)
    (k : string) :
  hash_of arg w <> EmptyString -> hash_of arg w <> "#" ->
  cache_hit (self w) (hash_of arg w) = None ->
  Forall (fun segment =>
            segment_name (get_assign (_getters (self w))) segment <> k)
    (split_by (get_separate (_getters (self w)))
       (stripped (hash_of arg w))) ->
  lookup_prop k (deref (snd (getOpts arg w)) (fst (getOpts arg w)))
  = lookup_prop k (seed_of arg).
Proof.
  intros Hs Hh Hmiss Hk.
  destruct (getOpts_miss_reads arg w Hs Hh Hmiss) as [_ ->].
  unfold read_segments. now apply lookup_read_unnamed.
Qed.


Lemma Forall_overwrite (P : value -> Prop) (k : string) (v : value)
    (o : props) :
  P v -> Forall (fun e => P (snd e)) o ->
  Forall (fun e => P (snd e)) (overwrite k v o).
Proof.
  intros Hv. induction 1 as [|[k' v'] o Hv' Ho IH]; simpl.
  - constructor.
  - destruct (String.eqb k k'); constructor; auto.
Qed.

Lemma Forall_insert_new (P : value -> Prop) (k : string) (v : value)
    (o : props) :
  P v -> Forall (fun e => P (snd e)) o ->
  Forall (fun e => P (snd e)) (insert_new k v o).
Proof.
  intros Hv. induction 1 as [|[k' v'] o Hv' Ho IH]; simpl.
  - repeat constructor. exact Hv.
  - destruct (key_before k k'); repeat constructor; auto.
Qed.

Lemma Forall_obj_set (P : value -> Prop) (k : string) (v : value)
    (o : props) :
  P v -> Forall (fun e => P (snd e)) o ->
  Forall (fun e => P (snd e)) (obj_set k v o).
Proof.
  intros Hv Ho. unfold obj_set.
  destruct (has_own o k);
    [now apply Forall_overwrite|now apply Forall_insert_new].
Qed.

Lemma segment_value_shape (ass : Splitter) (tv fv : Matcher)
    (segment : string) :
  read_shape (segment_value ass None tv fv segment) = true.
Proof.
  unfold segment_value.
  destruct (split_by ass segment) as [|a [|b [|c rest]]]; try reflexivity.
  - unfold getVal.
    now destruct (matcher_test tv b), (matcher_test fv b).
  - cbn [read_shape]. rewrite forallb_forall. intros x Hx.
    apply in_map_iff in Hx as (t & <- & _). reflexivity.
Qed.

(** X6.  Without JSON, under getters that split on strings and match with
    patterns, every property of the object that [getOpts] reads from a hash
    either has a value that is [null], a boolean, a string or an array of
    strings, or is a property of the defaults with the value that it has
    there: so reading a hash makes no number, no [undefined] and no
    object. *)
Theorem getOpts_read_shape (arg : option GetOpts) (w : World) :
  total_getters (_getters (self w)) = true ->
  _json (self w) = None ->
  hash_of arg w <> EmptyString -> hash_of arg w <> "#" ->
  cache_hit (self w) (hash_of arg w) = None ->
  forall (k : string) (v : value),
    lookup_prop k (deref (snd (getOpts arg w)) (fst (getOpts arg w)))
    = Some v ->
    read_shape v = true \/ lookup_prop k (seed_of arg) = Some v.
Proof.
  intros _ Hj Hs Hh Hmiss.
  destruct (getOpts_miss_reads arg w Hs Hh Hmiss) as [_ ->].
  unfold read_segments. rewrite Hj.
  generalize (split_by (get_separate (_getters (self w)))
                (stripped (hash_of arg w))).
  intros segments.
  assert (Hseed : forall k v,
             lookup_prop k (seed_of arg) = Some v ->
             read_shape v = true \/ lookup_prop k (seed_of arg) = Some v)
    by (intros; now right).
  revert Hseed. generalize (seed_of arg) at 1 3.
  induction segments as [|segment segments IH]; intros o Ho; simpl.
  - exact Ho.
  - apply IH. intros k v. rewrite read_segment_sets, lookup_obj_set.
    destruct (String.eqb k _).
    + intros [= <-]. left. apply segment_value_shape.
    + apply Ho.
Qed.

(** X7.  The hash character at the start is not needed: a hash without it
    is read as the same hash with it. *)
Theorem getOpts_hash_character_optional (a1 a2 : GetOpts) (s : string)
    (w : World) :
  go_hash a1 = Some s -> go_hash a2 = Some (String "#" s) ->
  go_defaults a1 = go_defaults a2 ->
  s <> EmptyString -> starts_with_hash s = false ->
  cache_hit (self w) s = None ->
  cache_hit (self w) (String "#" s) = None ->
  deref (snd (getOpts (Some a1) w)) (fst (getOpts (Some a1) w))
  = deref (snd (getOpts (Some a2) w)) (fst (getOpts (Some a2) w)).
Proof.
  intros H1 H2 Hd Hs Hstart Hm1 Hm2.
  assert (Hh1 : hash_of (Some a1) w = s) by (unfold hash_of; now rewrite H1).
  assert (Hh2 : hash_of (Some a2) w = String "#" s)
    by (unfold hash_of; now rewrite H2).
  destruct (getOpts_miss_reads (Some a1) w) as [_ ->];
    rewrite ?Hh1; try assumption.
  { intros ->. discriminate. }
  destruct (getOpts_miss_reads (Some a2) w) as [_ ->];
    rewrite ?Hh2; try assumption; try discriminate.
  { intros [= ->]. now apply Hs. }
  unfold seed_of, stripped. rewrite Hd, Hstart. reflexivity.
Qed.


(** *** serialize: flags, arrays and success *)

Lemma serialize_loop_flags (this : Instance) (autoArray_ : value)
    (obj : props) :
  Forall (fun e => snd e = JNull) obj ->
  forall doneFirst hashString,
    serialize_loop this autoArray_ obj doneFirst hashString
    = Normal
        (hashString
         +:+ match obj with
             | [] => EmptyString
             | _ :: _ =>
               (if doneFirst then set_separate (_setters this)
                else EmptyString)
               +:+ String.concat (set_separate (_setters this)) (keys obj)
             end).
Proof.
  induction 1 as [|[key val] obj Hval Hobj IH]; intros doneFirst hashString.
  - simpl. now rewrite append_nil_r.
  - simpl in Hval. subst val. cbn [serialize_loop].
    replace (serialize_value this autoArray_ JNull)
      with (Normal (A := string) EmptyString).
    2:{ unfold serialize_value.
        now destruct (enabled (set_true (_setters this))),
          (enabled (set_false (_setters this))). }
    rewrite IH. f_equal. rewrite append_nil_r.
    destruct obj as [|[key' val'] obj]; cbn [keys map fst String.concat].
    + rewrite append_nil_r.
      destruct doneFirst; now rewrite ?append_assoc.
    + destruct doneFirst; now rewrite ?append_nil_l, ?append_assoc.
Qed.

(** X8.  What [serialize] returns starts with the hash character, so it is
    never the empty string; and an object whose values are all [null] is
    written as the hash character and its keys with the separator between
    them, whatever the setters are: the empty object as the lone
    character. *)
Theorem serialize_flags (this : Instance) (obj : props)
    (setOpts : option SetOpts) :
  (forall text, serialize this obj setOpts = Normal text ->
                exists rest, text = String "#" rest)
  /\ (Forall (fun e => snd e = JNull) obj ->
      serialize this obj setOpts
      = Normal (String "#"
                  (String.concat (set_separate (_setters this)) (keys obj)))).
Proof.
  split.
  - intros text. apply serialize_starts_with_hash.
  - intros Hflags. unfold serialize.
    rewrite serialize_loop_flags by exact Hflags.
    destruct obj; reflexivity.
Qed.

Lemma serializeArray_flat (assign : string) (items : list value) :
  serializeArray assign items
  = flat_text assign (List.filter string_or_number items).
Proof.
  unfold serializeArray.
  rewrite <- (append_nil_l (flat_text _ _)).
  generalize EmptyString.
  induction items as [|item items IH]; intros acc; simpl.
  - now rewrite append_nil_r.
  - rewrite IH. destruct (string_or_number item); [|reflexivity].
    cbn [flat_text]. now rewrite !append_assoc.
Qed.

(** X9.  When arrays are not written as JSON, an array never makes
    [serialize] throw: each item that is a string or a number is written
    after the assignment text, and every other item, an object in the
    array too, is left out. *)
Theorem serialize_flat_array (this : Instance) (key : string)
    (items : list value) (setOpts : option SetOpts) :
  serializeJsonArray this = false ->
  serialize this [(key, JArr items)] setOpts
  = Normal (("#" +:+ key)
            +:+ flat_text (set_assign (_setters this))
                  (List.filter string_or_number items)).
Proof.
  intros Hflat. unfold serialize. cbn [serialize_loop].
  replace (serialize_value this _ (JArr items))
    with (Normal (serializeArray (set_assign (_setters this)) items)).
  - now rewrite serializeArray_flat.
  - unfold serialize_value.
    destruct (enabled (set_true (_setters this))),
      (enabled (set_false (_setters this)));
      cbn [typeof type_name_eqb]; now rewrite Hflat.
Qed.

(** X10.  With both boolean literals on, [serialize] returns a string for
    every object whose values are [null], booleans, numbers, strings and
    arrays, when each array is one that is written without
    [JSON.stringify]: arrays are not written as JSON, or the automatic
    choice is on and the items of the array are strings and numbers. *)
Theorem serialize_succeeds (this : Instance) (obj : props)
    (setOpts : option SetOpts) :
  enabled (set_true (_setters this)) <> None ->
  enabled (set_false (_setters this)) <> None ->
  Forall (fun e => writable (snd e) = true) obj ->
  Forall (fun e =>
            written_flat this (autoArray_of this setOpts) (snd e) = true)
    obj ->
  exists text, serialize this obj setOpts = Normal text.
Proof.
  intros Htrue Hfalse Hobj _. unfold serialize.
  generalize "#". generalize false.
  induction Hobj as [|[key val] obj Hval Hobj IH];
    intros doneFirst hashString.
  - now eexists.
  - cbn [serialize_loop].
    assert (Hv : exists text,
               serialize_value this
                 match so_autoArray
                         match setOpts with
                         | Some a => a
                         | None => no_SetOpts
                         end with
                 | Some v => v
                 | None => JBool (autoArray this)
                 end val = Normal text).
    { unfold serialize_value.
      destruct (enabled (set_true (_setters this))); [|congruence].
      destruct (enabled (set_false (_setters this))); [|congruence].
      destruct val as [| |[|]| | |items| | |]; try discriminate;
        try (now eexists).
      cbn [typeof type_name_eqb].
      destruct (serializeJsonArray this); [|now eexists].
      destruct (truthy _); [|now eexists].
      destruct (negb _); now eexists. }
    destruct Hv as [text ->]. apply IH.
Qed.

(** *** replace and update *)

(** X11.  When [serialize] returns a text for the object, [replace] hands
    the text to [_setHash] once, changes no object, and caches the object
    itself under the text: unless the text is the lone hash character,
    [getOpts] with that text, given or read from a source that gives what
    was set, returns the very object with its values as they are, and does
    not read the text. *)
Theorem replace_then_getOpts (reps : loc) (setOpts : option SetOpts)
    (w : World) (text : string) :
  serialize (self w) (deref w reps) setOpts = Normal text ->
  exists w',
    replace reps setOpts w = (Normal tt, w')
    /\ heap w' = heap w
    /\ setHash_calls w' = setHash_calls w ++ [text]
    /\ host w' = _setHash (self w) text (host w)
    /\ (text <> "#" ->
        (forall a, go_hash a = Some text -> getOpts (Some a) w' = (reps, w'))
        /\ (_getHash (self w) (host w') = text ->
            getOpts None w' = (reps, w'))).
Proof.
  intros Htext. unfold replace. rewrite Htext.
  destruct (serialize_starts_with_hash _ _ _ _ Htext) as [rest Hrest].
  eexists. split; [reflexivity|]. cbn [heap setHash_calls host self].
  repeat split.
  - intros a Ha. apply (getOpts_hit a text); try assumption.
    + now rewrite Hrest.
    + unfold cache_hit. cbn. unfold truthy_string.
      now rewrite String.eqb_refl, Hrest.
  - intros Hsource. apply getOpts_hit_source;
      cbn [self host _getHash set_lastOpts set_lastHash];
      rewrite Hsource; try assumption.
    + now rewrite Hrest.
    + unfold cache_hit. cbn. unfold truthy_string.
      now rewrite String.eqb_refl, Hrest.
Qed.

Lemma getOpts_fills_cache_of (arg : option GetOpts) (w : World) :
  hash_of arg w <> EmptyString -> hash_of arg w <> "#" ->
  cache_hit (self (snd (getOpts arg w))) (hash_of arg w)
  = Some (fst (getOpts arg w)).
Proof.
  intros Hs Hh. rewrite getOpts_cases, (present_hash _ Hs Hh).
  destruct (cache_hit (self w) (hash_of arg w)) as [l|] eqn:Hc; simpl.
  - exact Hc.
  - unfold cache_hit; simpl. unfold truthy_string.
    apply String.eqb_neq in Hs. now rewrite Hs, String.eqb_refl.
Qed.

Lemma getOpts_hit_of (arg : option GetOpts) (w : World) (l : loc) :
  hash_of arg w <> EmptyString -> hash_of arg w <> "#" ->
  cache_hit (self w) (hash_of arg w) = Some l ->
  getOpts arg w = (l, w).
Proof.
  intros Hs Hh Hc. now rewrite getOpts_cases, (present_hash _ Hs Hh), Hc.
Qed.

Lemma update_throws (updates : props) (setOpts : option SetOpts)
    (arg : option GetOpts) (w : World) (e : error) :
  let current := fst (getOpts arg w) in
  let w1 := snd (getOpts arg w) in
  let merged := fold_left apply_update updates (deref w1 current) in
  serialize (self w1) merged setOpts = Throw e ->
  (current < length (heap w1))%nat ->
  update updates setOpts arg w = (Throw e, store current merged w1).
Proof.
  intros current w1 merged Hthrow Hin. unfold update.
  destruct (getOpts arg w) as [l w'] eqn:Hg.
  simpl in current, w1. subst current w1. fold merged.
  unfold replace.
  rewrite (deref_store l merged w' Hin).
  change (self (store l merged w')) with (self w').
  rewrite Hthrow. reflexivity.
Qed.

(** X12.  [update] is not undone when it fails.  When [serialize] throws
    for the merged object, [update] throws the same error and [_setHash] is
    not called, but the object that [getOpts] returned has the updates
    already; when the hash is present that object is the cached one, and
    the next [getOpts] returns it with the updates, though the hash has
    not changed. *)
Theorem update_failure_keeps_changes (updates : props)
    (setOpts : option SetOpts) (arg : option GetOpts) (w : World)
    (e : error) :
  let current := fst (getOpts arg w) in
  let w1 := snd (getOpts arg w) in
  let merged := fold_left apply_update updates (deref w1 current) in
  cache_in_heap w ->
  serialize (self w1) merged setOpts = Throw e ->
  let w2 := snd (update updates setOpts arg w) in
  fst (update updates setOpts arg w) = Throw e
  /\ setHash_calls w2 = setHash_calls w
  /\ host w2 = host w
  /\ deref w2 current = merged
  /\ (hash_of arg w <> EmptyString -> hash_of arg w <> "#" ->
      getOpts arg w2 = (current, w2)).
Proof.
  intros current w1 merged Hok Hthrow.
  pose proof (getOpts_in_heap arg w Hok) as Hin.
  pose proof (getOpts_frame arg w) as (Hhost & Hcalls & _).
  pose proof (update_throws updates setOpts arg w e Hthrow Hin) as Hup.
  fold current w1 in Hup. fold merged in Hup.
  rewrite Hup. cbn [fst snd].
  fold w1 in Hhost, Hcalls. fold current w1 in Hin.
  repeat split; try assumption.
  - now apply deref_store.
  - intros Hs Hh.
    assert (Hsame : hash_of arg (store current merged w1) = hash_of arg w).
    { unfold hash_of. destruct (go_hash _); [reflexivity|].
      cbn [store self host]. rewrite Hhost.
      unfold w1. rewrite getOpts_cases.
      destruct (truthy_string _ && negb _); [|reflexivity].
      now destruct (cache_hit _ _). }
    apply getOpts_hit_of; rewrite Hsame; try assumption.
    apply (getOpts_fills_cache_of arg w Hs Hh).
Qed.


(** *** delete *)

Lemma existsb_keys (k : string) (o : props) :
  existsb (String.eqb k) (keys o) = has_own o k.
Proof.
  unfold has_own. induction o as [|[k' v'] o IH]; simpl.
  - reflexivity.
  - destruct (String.eqb k k'); [reflexivity|exact IH].
Qed.

Lemma lookup_apply_removals (updates : props) :
  Forall (fun e => snd e = JUndefined) updates ->
  forall (current : props) (k : string),
    lookup_prop k (fold_left apply_update updates current)
    = if has_own updates k then None else lookup_prop k current.
Proof.
  unfold has_own.
  induction 1 as [|[k0 v0] updates Hv _ IH]; intros current k; simpl.
  - reflexivity.
  - simpl in Hv. subst v0. rewrite IH. cbn [apply_update is_undefined].
    rewrite lookup_obj_delete.
    destruct (String.eqb k k0); [|reflexivity].
    now destruct (lookup_prop k updates).
Qed.

Lemma all_remove_undefined (names : list string) :
  forall u : props,
    Forall (fun e => snd e = JUndefined) u ->
    Forall (fun e => snd e = JUndefined)
      (fold_left (fun u p => obj_set p JUndefined u) names u).
Proof.
  induction names as [|p names IH]; intros u Hu; simpl; [exact Hu|].
  apply IH. now apply (Forall_obj_set (fun v => v = JUndefined)).
Qed.

(** X13.  None of the given names is [__proto__], and neither is a key of
    the object that [getOpts] returns for the current hash.  When [delete]
    returns, the object that it commits, which is that object, has none of
    the given names, and has every other key with the value it had; its
    text went to [_setHash] once. *)
Theorem delete_removes (names : list string) (setOpts : option SetOpts)
    (getOpts_ : option GetOpts) (w w2 : World) :
  let current := fst (getOpts None w) in
  let w1 := snd (getOpts None w) in
  forallb ordinary names = true ->
  forallb ordinary (keys (deref w1 current)) = true ->
  cache_in_heap w ->
  delete names setOpts getOpts_ w = (Normal tt, w2) ->
  (forall k,
      lookup_prop k (deref w2 current)
      = if existsb (String.eqb k) names then None
        else lookup_prop k (deref w1 current))
  /\ exists text,
      serialize (self w1) (deref w2 current) None = Normal text
      /\ setHash_calls w2 = setHash_calls w ++ [text].
Proof.
  intros current w1 _ _ Hok Hdel. unfold delete in Hdel.
  set (updates := fold_left (fun u p => obj_set p JUndefined u) names [])
    in Hdel.
  pose proof (getOpts_in_heap None w Hok) as Hin.
  pose proof (getOpts_frame None w) as (_ & Hcalls & _).
  fold current w1 in Hin, Hcalls.
  set (merged := fold_left apply_update updates (deref w1 current)).
  assert (Hall : Forall (fun e => snd e = JUndefined) updates).
  { unfold updates. apply all_remove_undefined. constructor. }
  assert (Hlookup : forall k,
             lookup_prop k merged
             = if existsb (String.eqb k) names then None
               else lookup_prop k (deref w1 current)).
  { intros k. unfold merged. rewrite lookup_apply_removals by exact Hall.
    unfold has_own, updates. rewrite lookup_all_remove. simpl.
    now destruct (existsb (String.eqb k) names). }
  destruct (serialize (self w1) merged None) as [text|e] eqn:Hser.
  - pose proof (update_commits updates None None w text Hser Hin) as Hup.
    fold current w1 in Hup. fold merged in Hup.
    rewrite Hup in Hdel. injection Hdel as <-.
    assert (Hd : deref
                   {| self := set_lastOpts (Some current)
                                (set_lastHash (Some text) (self w1));
                      heap := <[current := merged]> (heap w1);
                      host := _setHash (self w1) text (host w1);
                      setHash_calls := setHash_calls w1 ++ [text] |} current
                 = merged).
    { unfold deref. cbn [heap]. now rewrite list_lookup_insert_eq. }
    rewrite Hd. split; [exact Hlookup|].
    exists text. cbn [setHash_calls]. now rewrite Hcalls.
  - pose proof (update_throws updates None None w e Hser Hin) as Hup.
    fold current w1 in Hup. fold merged in Hup.
    rewrite Hup in Hdel. discriminate.
Qed.

(** *** Configuration and the cache *)

Lemma useJson_same_cache (v : value) (this this' : Instance) :
  useJson v this = Normal this' -> same_cache this this'.
Proof.
  unfold useJson.
  destruct v as [| |[|]| |s| | | |]; try discriminate;
    try (intros [= <-]; now split).
  destruct (String.eqb s "array"); [intros [= <-]; now split|].
  destruct (String.eqb s "object"); [intros [= <-]; now split|discriminate].
Qed.

Lemma setSetter_same_cache (name : string) (v : value)
    (this this' : Instance) :
  setSetter name v this = Normal this' -> same_cache this this'.
Proof.
  unfold setSetter.
  destruct (String.eqb name "true"), (String.eqb name "false"),
    (String.eqb name "separate"), (String.eqb name "assign");
    destruct v as [| |[|]| | | | | |]; try discriminate;
    intros [= <-]; now split.
Qed.

Lemma setGetter_same_cache (name : string) (v : value)
    (this this' : Instance) :
  setGetter name v this = Normal this' -> same_cache this this'.
Proof.
  unfold setGetter.
  destruct (String.eqb name "true"), (String.eqb name "false"),
    (String.eqb name "separate"), (String.eqb name "assign");
    destruct v as [| |[|]| | | | | |]; try discriminate;
    intros [= <-]; now split.
Qed.

Lemma set_each_same_cache
    (set : string -> value -> Instance -> Completion Instance)
    (entries : props) :
  (forall name v this this',
      set name v this = Normal this' -> same_cache this this') ->
  forall this this',
    set_each set entries this = Normal this' -> same_cache this this'.
Proof.
  intros Hset. induction entries as [|[key val] entries IH];
    intros this this'; simpl.
  - intros [= <-]. now split.
  - destruct (set key val this) as [this1|] eqn:H1; [|discriminate].
    intros H2. destruct (Hset _ _ _ _ H1) as [Ha Hb].
    destruct (IH _ _ H2) as [Hc Hd]. split; congruence.
Qed.

Lemma setGetters_same_cache (obj : value) (this this' : Instance) :
  setGetters obj this = Normal this' -> same_cache this this'.
Proof.
  unfold setGetters. destruct (type_name_eqb _ _); [|discriminate].
  apply set_each_same_cache. exact setGetter_same_cache.
Qed.

Lemma setSetters_same_cache (obj : value) (this this' : Instance) :
  setSetters obj this = Normal this' -> same_cache this this'.
Proof.
  unfold setSetters. destruct (type_name_eqb _ _); [|discriminate].
  apply set_each_same_cache. exact setSetter_same_cache.
Qed.

(** X14.  Changing the configuration does not empty the cache.  After
    [setGetter], [setGetters], [setSetter], [setSetters] or [useJson] has
    returned, [getOpts] with the cached hash still returns the cached
    object, read under the configuration that was there before. *)
Theorem reconfigure_keeps_cache (w : World) (this' : Instance)
    (a : GetOpts) (s : string) (l : loc) :
  (exists name v, setGetter name v (self w) = Normal this')
  \/ (exists obj, setGetters obj (self w) = Normal this')
  \/ (exists name v, setSetter name v (self w) = Normal this')
  \/ (exists obj, setSetters obj (self w) = Normal this')
  \/ (exists v, useJson v (self w) = Normal this') ->
  go_hash a = Some s -> s <> EmptyString -> s <> "#" ->
  cache_hit (self w) s = Some l ->
  getOpts (Some a) (with_self this' w) = (l, with_self this' w).
Proof.
  intros Hconf Ha Hs Hh Hc.
  assert (Hsame : same_cache (self w) this').
  { destruct Hconf as [(name & v & H)|[(obj & H)|[(name & v & H)|
                      [(obj & H)|(v & H)]]]].
    - exact (setGetter_same_cache _ _ _ _ H).
    - exact (setGetters_same_cache _ _ _ H).
    - exact (setSetter_same_cache _ _ _ _ H).
    - exact (setSetters_same_cache _ _ _ H).
    - exact (useJson_same_cache _ _ _ H). }
  apply (getOpts_hit a s); try assumption.
  destruct Hsame as [H1 H2]. unfold cache_hit in *. cbn [with_self self].
  now rewrite H1, H2.
Qed.

Lemma constructor_empty_cache (opts : Options) (this : Instance) :
  constructor opts = Normal this ->
  _lastHash this = None /\ _lastOpts this = None.
Proof.
  unfold constructor.
  set (this0 := {| _getHash := _; _setHash := _; shortOpt := _;
                   autoArray := _; _json := None; json := None;
                   _getters := default_getters;
                   _setters := default_setters;
                   _lastHash := None; _lastOpts := None |}).
  cbv zeta. intros Hmade.
  assert (H1 : forall i, match opt_json opts with
                         | Some v => useJson v this0
                         | None => Normal this0
                         end = Normal i -> same_cache this0 i).
  { destruct (opt_json opts) as [v|].
    - intros i. apply useJson_same_cache.
    - intros i [= <-]. now split. }
  destruct (match opt_json opts with
            | Some v => useJson v this0
            | None => Normal this0
            end) as [i1|e1]; [|discriminate].
  specialize (H1 i1 eq_refl).
  destruct (opt_getters opts) as [g|].
  - destruct (setGetters g i1) as [i2|e2] eqn:H2; [|discriminate].
    apply setGetters_same_cache in H2.
    destruct (opt_setters opts) as [t|].
    + apply setSetters_same_cache in Hmade.
      unfold same_cache in *. cbn in H1. intuition congruence.
    + injection Hmade as <-.
      unfold same_cache in *. cbn in H1. intuition congruence.
  - destruct (opt_setters opts) as [t|].
    + apply setSetters_same_cache in Hmade.
      unfold same_cache in *. cbn in H1. intuition congruence.
    + injection Hmade as <-.
      unfold same_cache in *. cbn in H1. intuition congruence.
Qed.

(** X15.  A static call works on an instance made for it, whose cache is
    empty: [URLHash.getOpts] never returns an object that was returned or
    given before, it returns a new object each time; and when the hash is
    present that object is read from the hash. *)
Theorem static_getOpts_new_object (getOpts_ : option GetOpts)
    (hashOpts : option Options) (w w' : World) (l : loc) :
  static_getOpts getOpts_ hashOpts w = Normal (l, w') ->
  l = length (heap w)
  /\ (exists o, heap w' = heap w ++ [o] /\ deref w' l = o)
  /\ forall this,
      new_URLHash hashOpts = Normal this ->
      hash_of getOpts_ (with_self this w) <> EmptyString ->
      hash_of getOpts_ (with_self this w) <> "#" ->
      deref w' l
      = read_segments (_getters this) (_json this) (seed_of getOpts_)
          (stripped (hash_of getOpts_ (with_self this w))).
Proof.
  unfold static_getOpts.
  destruct (new_URLHash hashOpts) as [this|e] eqn:Hnew; [|discriminate].
  intros [= Hget].
  destruct (constructor_empty_cache _ _ Hnew) as [Hlast _].
  assert (Hmiss : forall s, cache_hit (self (with_self this w)) s = None).
  { intros s. unfold cache_hit. cbn [with_self self]. now rewrite Hlast. }
  rewrite getOpts_cases, Hmiss in Hget.
  destruct (truthy_string _ && negb _) eqn:Hpresent.
  - injection Hget as <- <-. cbn [with_self heap self].
    split; [reflexivity|]. split.
    + eexists. split; [reflexivity|]. now apply deref_fresh.
    + intros this1 [= <-] _ _. now apply deref_fresh.
  - unfold alloc in Hget. injection Hget as <- <-.
    cbn [with_self heap self]. split; [reflexivity|]. split.
    + eexists. split; [reflexivity|]. now apply deref_fresh.
    + intros this1 [= <-] Hs Hh.
      now rewrite (present_hash _ Hs Hh) in Hpresent.
Qed.

(** X16.  The four JSON modes.  The constructor takes for [json] the
    values [true], [false], ['array'] and ['object'] and throws for every
    other value; arrays are written as JSON with [true] and ['array'],
    and objects only with ['object']. *)
Theorem json_modes (v : value) :
  match constructor (options_json v) with
  | Normal this =>
    (v = JBool true /\ _json this = Some JSON_ALL
     /\ serializeJsonArray this = true /\ serializeJsonObject this = false)
    \/ (v = JBool false /\ _json this = None
        /\ serializeJsonArray this = false
        /\ serializeJsonObject this = false)
    \/ (v = JStr "array" /\ _json this = Some JSON_ARR
        /\ serializeJsonArray this = true
        /\ serializeJsonObject this = false)
    \/ (v = JStr "object" /\ _json this = Some JSON_OBJ
        /\ serializeJsonArray this = false
        /\ serializeJsonObject this = true)
  | Throw e =>
    e = Error "Invalid value passed to useJson()"
    /\ v <> JBool true /\ v <> JBool false
    /\ v <> JStr "array" /\ v <> JStr "object"
  end.
Proof.
  unfold constructor, options_json.
  cbn [opt_json opt_getters opt_setters].
  destruct v as [| |[|]| |s| | | |]; cbn [useJson];
    try (repeat split; (reflexivity || discriminate)).
  - left. repeat split.
  - right. left. repeat split.
  - destruct (String.eqb_spec s "array") as [->|Harr].
    { right. right. left. repeat split. }
    destruct (String.eqb_spec s "object") as [->|Hobj].
    { right. right. right. repeat split. }
    repeat split; congruence.
Qed.


(** *** Arrays through the default grammar *)

Lemma plain_item_filter (items : list value) :
  Forall (fun v => plain_item v = true) items ->
  List.filter string_or_number items = items.
Proof.
  induction 1 as [|item items Hitem _ IH]; simpl; [reflexivity|].
  unfold plain_item in Hitem. apply andb_true_iff in Hitem as [-> _].
  now rewrite IH.
Qed.

Lemma has_char_flat_text (c : ascii) (items : list value) :
  c = ";"%char ->
  Forall (fun v => plain_item v = true) items ->
  has_char c (flat_text "=" items) = false.
Proof.
  intros ->. induction 1 as [|item items Hitem _ IH]; [reflexivity|].
  cbn [flat_text]. rewrite !has_char_app, IH, orb_false_r.
  cbn [has_char Ascii.eqb Bool.eqb orb].
  unfold plain_item, plain in Hitem.
  apply andb_true_iff in Hitem as [_ [Hitem _]%andb_true_iff].
  now apply negb_true_iff in Hitem.
Qed.

(** Splitting the text of a flat array by the assignment character gives
    the texts of the items. *)
Lemma split_flat_text (items : list value) :
  Forall (fun v => plain_item v = true) items ->
  forall seg,
    has_char "=" seg = false ->
    split_from "=" 0 (seg +:+ flat_text "=" items)
    = seg :: map text_of items.
Proof.
  induction 1 as [|item items Hitem _ IH]; intros seg Hseg;
    cbn [flat_text map].
  - rewrite append_nil_r. now apply split_from_last.
  - change ("=" +:+ (text_of item +:+ flat_text "=" items))
      with (String "=" (text_of item +:+ flat_text "=" items)).
    rewrite split_from_piece by exact Hseg. f_equal.
    apply IH. unfold plain_item, plain in Hitem.
    apply andb_true_iff in Hitem as [_ [_ Hitem]%andb_true_iff].
    now apply negb_true_iff in Hitem.
Qed.

(** X17.  An array through the default grammar without JSON.  An array of
    strings and numbers, none with the separator or the assignment
    character, under a key without them that is not [__proto__], is
    written as the key and one
    assignment for each item.  Read back, two items or more give the array
    of the texts of the items: a number comes back as a string.  One item
    gives the value of its text, not an array, and no item gives [null]. *)
Theorem roundtrip_flat_array (key : string) (items : list value)
    (setOpts : option SetOpts) (w : World) :
  _getters (self w) = default_getters ->
  _setters (self w) = default_setters ->
  _json (self w) = None ->
  key <> EmptyString -> plain key = true -> ordinary key = true ->
  Forall (fun v => plain_item v = true) items ->
  exists text,
    serialize (self w) [(key, JArr items)] setOpts = Normal text
    /\ text = "#" +:+ key +:+ flat_text "=" items
    /\ (cache_hit (self w) text = None ->
        let decoded := getOpts (Some (options_hash text)) w in
        deref (snd decoded) (fst decoded)
        = [(key,
            match items with
            | [] => JNull
            | [item] =>
              getVal None (get_true default_getters)
                (get_false default_getters) (text_of item)
            | _ :: _ :: _ => JArr (map (fun v => JStr (text_of v)) items)
            end)]).
Proof.
  intros Hg Hs Hj Hkey Hplain _ Hitems.
  assert (Hk1 : has_char ";" key = false /\ has_char "=" key = false).
  { unfold plain in Hplain. apply andb_true_iff in Hplain as [H1 H2].
    now apply negb_true_iff in H1, H2. }
  destruct Hk1 as [Hk1 Hk2].
  exists ("#" +:+ key +:+ flat_text "=" items). split; [|split].
  - rewrite serialize_flat_array
      by (unfold serializeJsonArray; now rewrite Hj).
    rewrite Hs, plain_item_filter by exact Hitems.
    cbn [set_assign default_setters]. now rewrite append_assoc.
  - reflexivity.
  - intros Hmiss decoded. subst decoded.
    change ("#" +:+ key +:+ flat_text "=" items)
      with (String "#" (key +:+ flat_text "=" items)) in *.
    destruct (getOpts_miss_reads
                (Some (options_hash
                         (String "#" (key +:+ flat_text "=" items)))) w)
      as [_ ->]; try exact Hmiss; try discriminate.
    { cbn [hash_of options_hash go_hash]. intros [= Hempty].
      apply append_eq_empty in Hempty as [Hempty _]. now apply Hkey. }
    cbn [hash_of options_hash go_hash]. unfold stripped, seed_of.
    cbn [starts_with_hash substr1 options_hash go_defaults is_object typeof
         type_name_eqb andb].
    rewrite Ascii.eqb_refl, Hg, Hj. unfold read_segments.
    cbn [split_by get_separate default_getters]. unfold split_string.
    cbn [String.eqb].
    rewrite split_from_last
      by (rewrite has_char_app, Hk1; now apply has_char_flat_text).
    cbn [fold_left]. unfold read_segment.
    cbn [split_by get_assign get_true get_false default_getters].
    unfold split_string. cbn [String.eqb].
    rewrite (split_flat_text items Hitems key Hk2).
    destruct items as [|item [|item' items]]; cbn [map flat_text].
    + now rewrite append_nil_r.
    + reflexivity.
    + rewrite !map_map. reflexivity.
Qed.

(** *** getOpt without the fallback *)

(** X18.  The object that [getOpts] returns is a plain object: none of
    its keys is [__proto__].  [getOpt] returns the value of the name when
    the object has the name as its own property with a value other than
    [undefined], whatever the fallback says.  When reading the name gives
    [undefined], which is when the name is not inherited from
    [Object.prototype] and is absent or has the value [undefined], it
    returns the [default] option if the fallback is off, and also if it is
    on and the object is not one lone flag: so an option whose value is
    [undefined] counts as absent. *)
Theorem getOpt_named_or_default (name : string) (a : GetOpts) (w : World) :
  let fallback :=
    match go_shortOpt a with
    | Some v => v
    | None => JBool (shortOpt (self w))
    end in
  let decoded := deref (snd (getOpts (Some a) w)) (fst (getOpts (Some a) w)) in
  forallb ordinary (keys decoded) = true ->
  (forall v, lookup_prop name decoded = Some v -> v <> JUndefined ->
             fst (getOpt name (Some a) w) = v)
  /\ (obj_get decoded name = JUndefined -> truthy fallback = false ->
      fst (getOpt name (Some a) w) = go_default a)
  /\ (obj_get decoded name = JUndefined ->
      (forall key, decoded <> [(key, JNull)]) ->
      fst (getOpt name (Some a) w) = go_default a).
Proof.
  intros fallback decoded _.
  unfold getOpt. fold fallback.
  destruct (getOpts (Some a) w) as [l w'] eqn:Hg.
  simpl in decoded. fold decoded.
  repeat split.
  - intros v Hv Hdef. unfold obj_get. rewrite Hv.
    destruct v; try reflexivity. contradiction.
  - intros Hundef Hoff. rewrite Hundef. cbn [is_undefined negb].
    rewrite Hoff. cbn [andb].
    now destruct (keys decoded) as [|key [|key' rest]].
  - intros Hundef Hflag. rewrite Hundef. cbn [is_undefined negb].
    destruct decoded as [|[key val] [|e rest]] eqn:Hd; try reflexivity.
    cbn [keys map fst]. unfold obj_get. cbn [lookup_prop].
    rewrite String.eqb_refl.
    destruct val; try (now rewrite andb_false_r).
    now destruct (Hflag key).
Qed.


(** *** The option of serialize *)

Lemma serialize_value_by_truth (this : Instance) (v : value) (val : value) :
  serialize_value this v val
  = serialize_value (with_autoArray (truthy v) this)
      (JBool (truthy v)) val.
Proof.
  unfold serialize_value.
  change (_setters (with_autoArray (truthy v) this)) with (_setters this).
  change (serializeJsonArray (with_autoArray (truthy v) this))
    with (serializeJsonArray this).
  change (serializeJsonObject (with_autoArray (truthy v) this))
    with (serializeJsonObject this).
  cbn [truthy]. reflexivity.
Qed.

(** X19.  The [autoArray] option of a call stands for the property of the
    instance, and only its truth counts: [serialize] with the option gives
    what it gives without the option on an instance whose [autoArray] is
    the truth of the option, be it a text or an error. *)
Theorem serialize_autoArray_option (this : Instance) (obj : props)
    (v : value) :
  serialize this obj (Some {| so_autoArray := Some v |})
  = serialize (with_autoArray (truthy v) this) obj None.
Proof.
  unfold serialize. cbn [so_autoArray no_SetOpts autoArray with_autoArray].
  generalize "#". generalize false.
  induction obj as [|[key val] obj IH]; intros doneFirst hashString.
  - reflexivity.
  - cbn [serialize_loop].
    change (_setters (with_autoArray (truthy v) this)) with (_setters this).
    rewrite <- serialize_value_by_truth.
    destruct (serialize_value this v val); [apply IH|reflexivity].
Qed.

(** X20.  [replace] with an object that has no property sets the lone hash
    character, and the cache it fills is never used: [getOpts] on that hash
    returns a new object, not the one given to [replace]. *)
Theorem replace_empty_object (reps : loc) (setOpts : option SetOpts)
    (w : World) :
  deref w reps = [] ->
  exists w',
    replace reps setOpts w = (Normal tt, w')
    /\ setHash_calls w' = setHash_calls w ++ ["#"]
    /\ _lastHash (self w') = Some "#"
    /\ _lastOpts (self w') = Some reps
    /\ (_getHash (self w) (host w') = "#" ->
        fst (getOpts None w') = length (heap w)
        /\ deref (snd (getOpts None w')) (fst (getOpts None w')) = []
        /\ ((reps < length (heap w))%nat -> fst (getOpts None w') <> reps)).
Proof.
  intros Hempty. unfold replace, serialize. rewrite Hempty.
  cbn [serialize_loop]. eexists. split; [reflexivity|].
  do 3 (split; [reflexivity|]).
  match goal with |- context [getOpts None ?x] => set (w' := x) in * end.
  intros Hsource.
  assert (Hget : getOpts None w' = alloc [] w').
  { rewrite getOpts_cases. unfold hash_of. cbn [no_GetOpts go_hash].
    change (_getHash (self w') (host w')) with (_getHash (self w) (host w')).
    rewrite Hsource. reflexivity. }
  rewrite Hget. unfold alloc. cbn [fst snd].
  change (heap w') with (heap w).
  split; [reflexivity|]. split; [now apply deref_fresh|lia].
Qed.


(** *** Array indices *)

Lemma digit_bound (c : ascii) (d : N) : digit c = Some d -> (d <= 9)%N.
Proof.
  unfold digit.
  destruct ((48 <=? N_of_ascii c)%N && (N_of_ascii c <=? 57)%N) eqn:E;
    [|discriminate].
  apply andb_true_iff in E as [E1 E2].
  apply N.leb_le in E1, E2. intros [= <-]. lia.
Qed.

Lemma digit_inj (c1 c2 : ascii) (d : N) :
  digit c1 = Some d -> digit c2 = Some d -> c1 = c2.
Proof.
  unfold digit.
  destruct ((48 <=? N_of_ascii c1)%N && (N_of_ascii c1 <=? 57)%N) eqn:E1;
    [|discriminate].
  destruct ((48 <=? N_of_ascii c2)%N && (N_of_ascii c2 <=? 57)%N) eqn:E2;
    [|discriminate].
  apply andb_true_iff in E1 as [E1 _], E2 as [E2 _].
  apply N.leb_le in E1, E2. intros [= <-] [= H].
  rewrite <- (ascii_N_embedding c1), <- (ascii_N_embedding c2).
  f_equal. lia.
Qed.

Lemma digits_value_inj (s1 : string) :
  forall (s2 : string) (acc1 acc2 v : N),
    String.length s1 = String.length s2 ->
    digits_value acc1 s1 = Some v -> digits_value acc2 s2 = Some v ->
    acc1 = acc2 /\ s1 = s2.
Proof.
  induction s1 as [|c1 s1 IH]; intros [|c2 s2] acc1 acc2 v Hlen;
    try discriminate; simpl.
  - intros [= <-] [= <-]. now split.
  - destruct (digit c1) as [d1|] eqn:H1; [|discriminate].
    destruct (digit c2) as [d2|] eqn:H2; [|discriminate].
    intros Hv1 Hv2. injection Hlen as Hlen.
    destruct (IH s2 _ _ v Hlen Hv1 Hv2) as [Hacc ->].
    pose proof (digit_bound _ _ H1). pose proof (digit_bound _ _ H2).
    assert (acc1 = acc2 /\ d1 = d2) as [-> ->] by lia.
    split; [reflexivity|]. f_equal. exact (digit_inj _ _ _ H1 H2).
Qed.

Lemma digits_value_bounds (s : string) :
  forall acc v : N,
    digits_value acc s = Some v ->
    (acc * 10 ^ N.of_nat (String.length s) <= v
     < (acc + 1) * 10 ^ N.of_nat (String.length s))%N.
Proof.
  induction s as [|c s IH]; intros acc v; simpl String.length.
  - intros [= <-]. simpl. lia.
  - cbn [digits_value]. destruct (digit c) as [d|] eqn:Hd; [|discriminate].
    intros Hv. apply IH in Hv. pose proof (digit_bound _ _ Hd).
    rewrite Nat2N.inj_succ, N.pow_succ_r'. nia.
Qed.

(** The length of an array index is decided by its number. *)
Lemma array_index_length (k : string) (n : N) :
  array_index k = Some n ->
  exists m : nat,
    String.length k = S m
    /\ digits_value 0 k = Some n
    /\ (n = 0%N /\ m = 0%nat
        \/ (10 ^ N.of_nat m <= n < 10 ^ N.of_nat (S m))%N).
Proof.
  unfold array_index. destruct k as [|c rest]; [discriminate|].
  destruct (Ascii.eqb c "0" && negb (String.eqb rest "")) eqn:Hzero;
    [discriminate|].
  destruct (digits_value 0 (String c rest)) as [v|] eqn:Hv; [|discriminate].
  destruct (v <? 4294967295)%N; [|discriminate].
  intros [= <-]. exists (String.length rest).
  split; [reflexivity|]. split; [reflexivity|].
  cbn [digits_value] in Hv.
  destruct (digit c) as [d|] eqn:Hd; [|discriminate].
  pose proof (digit_bound _ _ Hd) as Hd9.
  change (10 * 0 + d)%N with d in Hv.
  pose proof (digits_value_bounds rest d v Hv) as Hb.
  destruct (Ascii.eqb_spec c "0") as [->|Hc].
  - simpl in Hzero. apply negb_false_iff, String.eqb_eq in Hzero.
    subst rest. injection Hd as <-. injection Hv as <-. left. now split.
  - right. assert (d <> 0%N).
    { intros ->. apply Hc. apply (digit_inj _ _ 0%N Hd). reflexivity. }
    rewrite Nat2N.inj_succ, N.pow_succ_r'. nia.
Qed.

Lemma array_index_inj (k1 k2 : string) (n : N) :
  array_index k1 = Some n -> array_index k2 = Some n -> k1 = k2.
Proof.
  intros H1 H2.
  destruct (array_index_length _ _ H1) as (m1 & L1 & V1 & B1).
  destruct (array_index_length _ _ H2) as (m2 & L2 & V2 & B2).
  assert (Hm : m1 = m2).
  { pose proof (N.pow_nonzero 10 (N.of_nat m1)).
    pose proof (N.pow_nonzero 10 (N.of_nat m2)).
    destruct B1 as [[Hn1 Hm1]|B1], B2 as [[Hn2 Hm2]|B2]; try lia.
    destruct (Nat.lt_trichotomy m1 m2) as [Hlt|[->|Hlt]]; [|reflexivity|].
    - assert (10 ^ N.of_nat (S m1) <= 10 ^ N.of_nat m2)%N
        by (apply N.pow_le_mono_r; lia). lia.
    - assert (10 ^ N.of_nat (S m2) <= 10 ^ N.of_nat m1)%N
        by (apply N.pow_le_mono_r; lia). lia. }
  subst m2.
  apply (digits_value_inj k1 k2 0%N 0%N n); congruence.
Qed.


(** *** Objects stay well formed *)

Lemma keys_overwrite (k : string) (v : value) (o : props) :
  keys (overwrite k v o) = keys o.
Proof.
  induction o as [|[k' v'] o IH]; simpl; [reflexivity|].
  destruct (String.eqb k k'); simpl; [reflexivity|now f_equal].
Qed.

Lemma keys_insert_new (k : string) (v : value) (o : props) :
  Permutation (keys (insert_new k v o)) (k :: keys o).
Proof.
  induction o as [|[k' v'] o IH]; simpl; [reflexivity|].
  destruct (key_before k k'); simpl; [reflexivity|].
  rewrite IH. apply perm_swap.
Qed.

Lemma has_own_keys (o : props) (k : string) :
  has_own o k = false -> k ∉ keys o.
Proof.
  rewrite <- existsb_keys. intros Hno Hin.
  apply list_elem_of_In in Hin.
  assert (existsb (String.eqb k) (keys o) = true).
  { apply existsb_exists. exists k. split; [exact Hin|].
    apply String.eqb_refl. }
  congruence.
Qed.

Lemma key_before_le (k k' : string) :
  key_before k k' = true -> key_le k k' = true.
Proof.
  unfold key_before, key_le.
  now destruct (array_index k), (array_index k').
Qed.

Lemma key_not_before_le (k k' : string) :
  key_before k k' = false -> k <> k' -> key_le k' k = true.
Proof.
  unfold key_before, key_le.
  destruct (array_index k) as [a|] eqn:Ha,
    (array_index k') as [b|] eqn:Hb; try congruence.
  intros Hab Hne. apply N.ltb_ge in Hab. apply N.ltb_lt.
  assert (a <> b).
  { intros ->. apply Hne. exact (array_index_inj _ _ _ Ha Hb). }
  lia.
Qed.

Lemma enumeration_order_cons (k : string) (ks : list string) :
  enumeration_order (k :: ks) = true
  <-> match ks with
      | [] => True
      | k' :: _ => key_le k k' = true
      end /\ enumeration_order ks = true.
Proof.
  destruct ks as [|k' ks]; cbn [enumeration_order].
  - tauto.
  - now rewrite andb_true_iff.
Qed.

Lemma insert_new_order (k : string) (v : value) (o : props) :
  k ∉ keys o ->
  enumeration_order (keys o) = true ->
  enumeration_order (keys (insert_new k v o)) = true.
Proof.
  induction o as [|[k' v'] o IH]; intros Hfresh Hord; [reflexivity|].
  cbn [keys map fst] in Hfresh, Hord.
  apply not_elem_of_cons in Hfresh as [Hne Hfresh].
  cbn [insert_new]. destruct (key_before k k') eqn:Hb.
  - cbn [keys map fst]. apply enumeration_order_cons.
    split; [now apply key_before_le|exact Hord].
  - cbn [keys map fst]. apply enumeration_order_cons in Hord as [Hhead Hord].
    apply enumeration_order_cons. split; [|now apply IH].
    destruct o as [|[k'' v''] o]; cbn [insert_new keys map fst].
    + now apply key_not_before_le.
    + destruct (key_before k k''); cbn [map fst].
      * now apply key_not_before_le.
      * exact Hhead.
Qed.

(** [o[k] = v] keeps an object well formed. *)
Lemma obj_set_well_formed (k : string) (v : value) (o : props) :
  well_formed o -> well_formed (obj_set k v o).
Proof.
  intros [Hnd Hord]. unfold obj_set, well_formed.
  destruct (has_own o k) eqn:Hown.
  - now rewrite keys_overwrite.
  - apply has_own_keys in Hown. split.
    + rewrite keys_insert_new. apply NoDup_cons. now split.
    + now apply insert_new_order.
Qed.

Lemma Forall_entries_overwrite (P : string -> value -> Prop) (k : string)
    (v : value) (o : props) :
  (forall k' v', String.eqb k k' = true -> P k' v' -> P k' v) ->
  Forall (fun e => P (fst e) (snd e)) o ->
  Forall (fun e => P (fst e) (snd e)) (overwrite k v o).
Proof.
  intros Hv. induction 1 as [|[k' v'] o Hv' Ho IH]; simpl.
  - constructor.
  - destruct (String.eqb k k') eqn:E; constructor; auto.
    simpl in *. eauto.
Qed.

Lemma Forall_entries_insert_new (P : string -> value -> Prop) (k : string)
    (v : value) (o : props) :
  P k v ->
  Forall (fun e => P (fst e) (snd e)) o ->
  Forall (fun e => P (fst e) (snd e)) (insert_new k v o).
Proof.
  intros Hv. induction 1 as [|[k' v'] o Hv' Ho IH]; simpl.
  - repeat constructor. exact Hv.
  - destruct (key_before k k'); repeat constructor; auto.
Qed.

Lemma Forall_entries_obj_set (P : string -> value -> Prop) (k : string)
    (v : value) (o : props) :
  P k v ->
  Forall (fun e => P (fst e) (snd e)) o ->
  Forall (fun e => P (fst e) (snd e)) (obj_set k v o).
Proof.
  intros Hv Ho. unfold obj_set. destruct (has_own o k).
  - apply Forall_entries_overwrite; [|exact Ho].
    intros k' v' E _. apply String.eqb_eq in E. now subst k'.
  - now apply Forall_entries_insert_new.
Qed.


(** *** The pieces of a split *)

Lemma split_from_char (c a : ascii) (s : string) :
  split_from (String c EmptyString) 0 (String a s)
  = if Ascii.eqb a c
    then EmptyString :: split_from (String c EmptyString) 0 s
    else match split_from (String c EmptyString) 0 s with
         | seg :: rest => String a seg :: rest
         | [] => [String a EmptyString]
         end.
Proof. cbn [split_from]. now rewrite prefix_char. Qed.

Lemma split_from_nonempty (c : ascii) (s : string) :
  split_from (String c EmptyString) 0 s <> [].
Proof.
  destruct s as [|a s]; [discriminate|].
  rewrite split_from_char. destruct (Ascii.eqb a c); [discriminate|].
  now destruct (split_from (String c EmptyString) 0 s).
Qed.

(** A character that is not in the string is in none of its pieces. *)
Lemma split_pieces_free (c d : ascii) (s : string) :
  has_char d s = false ->
  Forall (fun piece => has_char d piece = false)
    (split_from (String c EmptyString) 0 s).
Proof.
  induction s as [|a s IH]; intros Hfree.
  - repeat constructor.
  - simpl in Hfree. apply orb_false_iff in Hfree as [Ha Hs].
    rewrite split_from_char. specialize (IH Hs).
    destruct (Ascii.eqb a c); [now constructor|].
    destruct (split_from (String c EmptyString) 0 s) as [|seg rest].
    + repeat constructor. simpl. now rewrite Ha.
    + apply Forall_cons in IH as [Hseg Hrest]. constructor; [|exact Hrest].
      simpl. now rewrite Ha, Hseg.
Qed.

(** The separator is in none of the pieces. *)
Lemma split_pieces_apart (c : ascii) (s : string) :
  Forall (fun piece => has_char c piece = false)
    (split_from (String c EmptyString) 0 s).
Proof.
  induction s as [|a s IH].
  - repeat constructor.
  - rewrite split_from_char. destruct (Ascii.eqb a c) eqn:Ha;
      [now constructor|].
    destruct (split_from (String c EmptyString) 0 s) as [|seg rest].
    + repeat constructor. simpl. now rewrite Ha.
    + apply Forall_cons in IH as [Hseg Hrest]. constructor; [|exact Hrest].
      simpl. now rewrite Ha, Hseg.
Qed.

(** One piece only: the string has no separator. *)
Lemma split_one_piece (c : ascii) (s piece : string) :
  split_from (String c EmptyString) 0 s = [piece] ->
  has_char c s = false.
Proof.
  revert piece. induction s as [|a s IH]; intros piece; [reflexivity|].
  rewrite split_from_char. destruct (Ascii.eqb a c) eqn:Ha.
  - intros [= _ Hrest]. now apply split_from_nonempty in Hrest.
  - destruct (split_from (String c EmptyString) 0 s) as [|seg rest] eqn:Hs.
    + now apply split_from_nonempty in Hs.
    + intros [= _ ->]. simpl. rewrite Ha. exact (IH seg eq_refl).
Qed.

(** What a segment without the separator sets, under the default getters
    without JSON: a plain name and a value that comes back. *)
Lemma segment_comes_back (segment : string) :
  has_char ";" segment = false ->
  plain (segment_name (get_assign default_getters) segment) = true
  /\ comes_back
       (segment_value (get_assign default_getters) None
          (get_true default_getters) (get_false default_getters) segment)
     = true.
Proof.
  intros Hsep. unfold segment_name, segment_value.
  cbn [get_assign default_getters split_by]. unfold split_string.
  cbn [String.eqb].
  pose proof (split_pieces_free "=" ";" segment Hsep) as Hfree.
  pose proof (split_pieces_apart "=" segment) as Hapart.
  pose proof (split_from_nonempty "=" segment) as Hne.
  pose proof (split_one_piece "=" segment) as Hone.
  destruct (split_from "=" 0 segment) as [|name [|text [|text' rest]]];
    [contradiction| | |].
  - split; [|reflexivity]. unfold plain.
    now rewrite Hsep, (Hone name eq_refl).
  - apply Forall_cons in Hfree as [Hf1 Hfree], Hapart as [Ha1 Hapart].
    apply Forall_cons in Hfree as [Hf2 _], Hapart as [Ha2 _].
    split; [unfold plain; now rewrite Hf1, Ha1|].
    unfold getVal, matcher_test. cbn [get_true get_false default_getters].
    destruct (re_test true_re text) eqn:Ht; [reflexivity|].
    destruct (re_test false_re text) eqn:Hf; [reflexivity|].
    cbn [comes_back]. unfold plain. now rewrite Hf2, Ha2, Ht, Hf.
  - apply Forall_cons in Hfree as [Hf1 Hfree], Hapart as [Ha1 Hapart].
    split; [unfold plain; now rewrite Hf1, Ha1|].
    cbn [comes_back length map]. cbn [Nat.leb andb].
    rewrite forallb_forall. intros item Hitem.
    change (JStr text :: JStr text' :: map JStr rest)
      with (map JStr (text :: text' :: rest)) in Hitem.
    apply in_map_iff in Hitem as (piece & <- & Hpiece).
    unfold plain_string, plain. cbn [is_string text_of andb].
    rewrite Forall_forall in Hfree, Hapart.
    apply list_elem_of_In in Hpiece.
    now rewrite (Hfree piece Hpiece), (Hapart piece Hpiece).
Qed.

(** What [getOpts] reads under the default getters, without JSON and
    without defaults, is well formed, with plain keys and values that come
    back. *)
Lemma read_segments_come_back (hash : string) :
  let decoded := read_segments default_getters None [] hash in
  well_formed decoded
  /\ Forall (fun e => plain (fst e) = true /\ comes_back (snd e) = true)
       decoded.
Proof.
  unfold read_segments.
  cbn [get_separate default_getters split_by]. unfold split_string.
  cbn [String.eqb].
  pose proof (split_pieces_apart ";" hash) as Hsegments.
  assert (Hstart : well_formed []
                   /\ Forall (fun e : string * value =>
                                plain (fst e) = true
                                /\ comes_back (snd e) = true) []).
  { split; [split; [constructor|reflexivity]|constructor]. }
  revert Hstart. generalize (@nil (string * value)).
  induction Hsegments as [|segment segments Hsegment _ IH];
    intros o [Hwf Hall]; cbn [fold_left].
  - now split.
  - apply IH. rewrite read_segment_sets.
    destruct (segment_comes_back segment Hsegment) as [Hname Hvalue].
    split; [now apply obj_set_well_formed|].
    now apply (Forall_entries_obj_set
                 (fun k v => plain k = true /\ comes_back v = true)).
Qed.


(** *** The round trip with arrays *)

Lemma comes_back_reads_back (v : value) :
  comes_back v = true -> isArray v = false ->
  reads_back v = true /\ as_read v = v /\ written v = literal_text v.
Proof. destruct v; try discriminate; now repeat split. Qed.

Lemma plain_string_item (items : list value) :
  forallb plain_string items = true ->
  Forall (fun v => plain_item v = true) items
  /\ map JStr (map text_of items) = items.
Proof.
  induction items as [|item items IH]; cbn [forallb map].
  - now split.
  - intros [Hitem Hitems]%andb_true_iff.
    destruct (IH Hitems) as [Hall Hmap]. rewrite Hmap.
    unfold plain_string in Hitem. apply andb_true_iff in Hitem as [Hs Hp].
    destruct item; try discriminate. split; [|reflexivity].
    constructor; [|exact Hall]. unfold plain_item. now rewrite Hp.
Qed.

Lemma serialize_value_written (this : Instance) (autoArray_ : value)
    (v : value) :
  _setters this = default_setters ->
  serializeJsonArray this = false ->
  comes_back v = true ->
  serialize_value this autoArray_ v = Normal (written v).
Proof.
  intros Hs Hflat Hv. destruct (isArray v) eqn:Harr.
  - destruct v as [| | | | |items| | |]; try discriminate.
    cbn [comes_back] in Hv. apply andb_true_iff in Hv as [_ Hitems].
    destruct (plain_string_item items Hitems) as [Hall _].
    replace (serialize_value this autoArray_ (JArr items))
      with (Normal (serializeArray (set_assign (_setters this)) items)).
    + rewrite serializeArray_flat, Hs, plain_item_filter by exact Hall.
      reflexivity.
    + unfold serialize_value.
      destruct (enabled (set_true (_setters this))),
        (enabled (set_false (_setters this)));
        cbn [typeof type_name_eqb]; now rewrite Hflat.
  - destruct (comes_back_reads_back v Hv Harr) as (Hr & _ & ->).
    now apply serialize_value_literal.
Qed.

Lemma serialize_loop_written (this : Instance) (autoArray_ : value)
    (m : props) :
  _setters this = default_setters ->
  serializeJsonArray this = false ->
  Forall (fun entry => comes_back (snd entry) = true) m ->
  forall doneFirst hashString,
    serialize_loop this autoArray_ m doneFirst hashString
    = Normal (hashString +:+ joined_written doneFirst m).
Proof.
  intros Hs Hflat Hm.
  induction Hm as [|[key val] m Hval Hm IH]; intros doneFirst hashString.
  - simpl. now rewrite append_nil_r.
  - cbn [serialize_loop joined_written]. simpl in Hval.
    rewrite (serialize_value_written this autoArray_ val Hs Hflat Hval),
      IH, Hs.
    unfold entry_written. cbn [fst snd set_separate default_setters].
    destruct doneFirst; now rewrite ?append_nil_l, !append_assoc.
Qed.

Lemma has_char_entry_written (entry : string * value) :
  plain (fst entry) = true -> comes_back (snd entry) = true ->
  has_char ";" (entry_written entry) = false.
Proof.
  intros Hk Hv. destruct (isArray (snd entry)) eqn:Harr.
  - destruct entry as [key [| | | | |items| | |]]; try discriminate.
    unfold entry_written. cbn [fst snd written] in *.
    apply andb_true_iff in Hv as [_ Hitems].
    destruct (plain_string_item items Hitems) as [Hall _].
    rewrite has_char_app, (has_char_flat_text ";" items eq_refl Hall).
    unfold plain in Hk. apply andb_true_iff in Hk as [Hk _].
    apply negb_true_iff in Hk. now rewrite Hk.
  - destruct (comes_back_reads_back _ Hv Harr) as (Hr & _ & Hw).
    unfold entry_written. rewrite Hw.
    apply (has_char_entry_text ";" entry Hk Hr). now left.
Qed.

Lemma split_joined_written (entry : string * value) (m : props) :
  Forall (fun e => plain (fst e) = true /\ comes_back (snd e) = true)
    (entry :: m) ->
  split_from ";" 0 (entry_written entry +:+ joined_written true m)
  = map entry_written (entry :: m).
Proof.
  revert entry. induction m as [|entry' m IH]; intros entry Hall.
  - apply Forall_cons in Hall as [[Hk Hv] _].
    cbn [joined_written]. rewrite append_nil_r. simpl.
    apply split_from_last. now apply has_char_entry_written.
  - apply Forall_cons in Hall as [[Hk Hv] Hall].
    cbn [joined_written map].
    change (";" +:+ (entry_written entry' +:+ joined_written true m))
      with (String ";" (entry_written entry' +:+ joined_written true m)).
    rewrite split_from_piece by now apply has_char_entry_written.
    now rewrite (IH entry' Hall).
Qed.

Lemma read_segment_written (hashOpts : props) (entry : string * value) :
  plain (fst entry) = true -> comes_back (snd entry) = true ->
  read_segment (get_assign default_getters) None
    (get_true default_getters) (get_false default_getters) hashOpts
    (entry_written entry)
  = obj_set (fst entry) (snd entry) hashOpts.
Proof.
  intros Hk Hv. destruct (isArray (snd entry)) eqn:Harr.
  - destruct entry as [key [| | | | |items| | |]]; try discriminate.
    unfold entry_written. cbn [fst snd written comes_back] in *.
    apply andb_true_iff in Hv as [Hlen Hitems].
    destruct (plain_string_item items Hitems) as [Hall Hmap].
    assert (Hkey : has_char "=" key = false).
    { unfold plain in Hk. apply andb_true_iff in Hk as [_ Hk].
      now apply negb_true_iff in Hk. }
    unfold read_segment. cbn [split_by get_assign default_getters].
    unfold split_string. cbn [String.eqb].
    rewrite (split_flat_text items Hall key Hkey).
    destruct items as [|i1 [|i2 items]]; try discriminate.
    cbn [map] in *. now rewrite Hmap.
  - destruct (comes_back_reads_back _ Hv Harr) as (Hr & Has & Hw).
    unfold entry_written. rewrite Hw.
    change (fst entry +:+ literal_text (snd entry)) with (entry_text entry).
    rewrite read_segment_entry by assumption. now rewrite Has.
Qed.

Lemma read_segments_written (m : props) :
  Forall (fun e => plain (fst e) = true /\ comes_back (snd e) = true) m ->
  forall hashOpts,
    fold_left
      (read_segment (get_assign default_getters) None
         (get_true default_getters) (get_false default_getters))
      (map entry_written m) hashOpts
    = fold_left (fun o e => obj_set (fst e) (snd e) o) m hashOpts.
Proof.
  induction 1 as [|entry m [Hk Hv] Hm IH]; intros hashOpts; simpl.
  - reflexivity.
  - rewrite read_segment_written by assumption. apply IH.
Qed.

Lemma written_empty (v : value) :
  comes_back v = true -> written v = EmptyString -> v = JNull.
Proof.
  destruct v as [| |[|]| | |[|i1 [|i2 items]]| | |]; try discriminate;
    try reflexivity.
Qed.

Lemma joined_written_empty (m : props) :
  Forall (fun e => comes_back (snd e) = true) m ->
  joined_written false m = EmptyString ->
  m = [] \/ m = [(EmptyString, JNull)].
Proof.
  destruct m as [|[k v] m]; [now left|]. right.
  apply Forall_cons in H as [Hv _]. simpl in Hv.
  cbn [joined_written] in H0. rewrite append_nil_l in H0.
  apply append_eq_empty in H0 as [Hentry Hrest].
  unfold entry_written in Hentry. simpl in Hentry.
  apply append_eq_empty in Hentry as [-> Hw].
  apply (written_empty v Hv) in Hw as ->.
  destruct m as [|e m]; [reflexivity|discriminate].
Qed.

(** Writing and reading an object of values that come back. *)
Lemma roundtrip_written (m : props) (setOpts : option SetOpts)
    (w : World) :
  _getters (self w) = default_getters ->
  _setters (self w) = default_setters ->
  _json (self w) = None ->
  well_formed m ->
  Forall (fun e => plain (fst e) = true /\ comes_back (snd e) = true) m ->
  m <> [(EmptyString, JNull)] ->
  serialize (self w) m setOpts
  = Normal (String "#" (joined_written false m))
  /\ (cache_hit (self w) (String "#" (joined_written false m)) = None ->
      deref
        (snd (getOpts
                (Some (options_hash (String "#" (joined_written false m))))
                w))
        (fst (getOpts
                (Some (options_hash (String "#" (joined_written false m))))
                w))
      = m).
Proof.
  intros Hg Hs Hj [Hnd Hord] Hm Hflag.
  assert (Hvalues : Forall (fun e => comes_back (snd e) = true) m).
  { eapply Forall_impl; [exact Hm|]. now intros e [_ He]. }
  split.
  { unfold serialize. rewrite serialize_loop_written; try assumption.
    - reflexivity.
    - unfold serializeJsonArray. now rewrite Hj. }
  intros Hmiss. destruct m as [|entry m].
  - apply deref_alloc.
  - rewrite (getOpts_miss _ w
               (String "#" (joined_written false (entry :: m))));
      try reflexivity; try discriminate; try exact Hmiss.
    + cbn [fst snd]. erewrite deref_fresh by reflexivity.
      cbn [starts_with_hash substr1 options_hash go_defaults is_object
           typeof type_name_eqb andb].
      rewrite Ascii.eqb_refl, Hg, Hj.
      unfold read_segments. cbn [split_by get_separate default_getters].
      unfold split_string. cbn [String.eqb joined_written].
      rewrite append_nil_l, split_joined_written by exact Hm.
      rewrite read_segments_written by exact Hm.
      rewrite (rebuild (fun v => v)) by assumption.
      cbn [app]. clear. induction (entry :: m) as [|[k v] o IH];
        [reflexivity|]. simpl. now rewrite IH.
    + intros [= Hempty].
      change (joined_written false (entry :: m) = EmptyString) in Hempty.
      apply joined_written_empty in Hempty as [?|?];
        [discriminate|contradiction|exact Hvalues].
Qed.

(** X21.  The round trip of the default grammar, without JSON, with arrays:
    an object whose keys have no [";"] and no ["="] and are not
    [__proto__], that is not the lone
    flag with the empty name, and whose values are [null], booleans,
    strings that are not read as something else and arrays of two or more
    such strings, is written as a text that is read, on an instance whose
    cache does not hold the text, as the object itself, keys in order. *)
Theorem roundtrip_with_arrays (m : props) (setOpts : option SetOpts)
    (w : World) :
  _getters (self w) = default_getters ->
  _setters (self w) = default_setters ->
  _json (self w) = None ->
  well_formed m ->
  Forall (fun e => plain (fst e) = true /\ comes_back (snd e) = true) m ->
  forallb ordinary (keys m) = true ->
  m <> [(EmptyString, JNull)] ->
  exists text,
    serialize (self w) m setOpts = Normal text
    /\ (cache_hit (self w) text = None ->
        let decoded := getOpts (Some (options_hash text)) w in
        deref (snd decoded) (fst decoded) = m).
Proof.
  intros Hg Hs Hj Hwf Hm _ Hflag.
  exists (String "#" (joined_written false m)).
  exact (roundtrip_written m setOpts w Hg Hs Hj Hwf Hm Hflag).
Qed.


(** X22.  Reading is stable.  Under the default getters and setters,
    without JSON and without defaults, what [getOpts] reads from a hash
    that names no option [__proto__], unless it is the lone flag with the
    empty name, is written by [serialize] as a text that the same instance
    reads as the same options: writing what was read and reading it again
    changes nothing. *)
Theorem getOpts_stable (arg : option GetOpts) (setOpts : option SetOpts)
    (w : World) :
  _getters (self w) = default_getters ->
  _setters (self w) = default_setters ->
  _json (self w) = None ->
  seed_of arg = [] ->
  hash_of arg w <> EmptyString -> hash_of arg w <> "#" ->
  cache_hit (self w) (hash_of arg w) = None ->
  let first := getOpts arg w in
  let m := deref (snd first) (fst first) in
  forallb ordinary (keys m) = true ->
  m <> [(EmptyString, JNull)] ->
  exists text,
    serialize (self (snd first)) m setOpts = Normal text
    /\ (let second := getOpts (Some (options_hash text)) (snd first) in
        deref (snd second) (fst second) = m).
Proof.
  intros Hg Hs Hj Hseed Hpresent Hhash Hmiss first m _ Hflag.
  destruct (getOpts_miss_reads arg w Hpresent Hhash Hmiss) as [_ Hread].
  fold first in Hread. fold m in Hread.
  rewrite Hg, Hj, Hseed in Hread.
  destruct (read_segments_come_back (stripped (hash_of arg w)))
    as [Hwf Hall].
  rewrite <- Hread in Hwf, Hall.
  pose proof (getOpts_frame arg w) as (_ & _ & _ & Hg1 & Hs1 & Hj1).
  fold first in Hg1, Hs1, Hj1.
  rewrite Hg in Hg1. rewrite Hs in Hs1. rewrite Hj in Hj1.
  destruct (roundtrip_written m setOpts (snd first) Hg1 Hs1 Hj1 Hwf Hall
              Hflag) as [Htext Hback].
  exists (String "#" (joined_written false m)).
  split; [exact Htext|]. intros second. subst second.
  destruct (cache_hit (self (snd first))
              (String "#" (joined_written false m))) as [l|] eqn:Hc.
  - assert (Hl : l = fst first).
    { pose proof (getOpts_fills_cache_of arg w Hpresent Hhash) as Hfill.
      fold first in Hfill.
      apply cache_hit_lastOpts in Hc, Hfill. congruence. }
    subst l.
    assert (Hne : String "#" (joined_written false m) <> "#").
    { intros [= Hempty].
      apply joined_written_empty in Hempty as [Hnil|?];
        [|contradiction|].
      - apply cache_hit_lastHash in Hc.
        pose proof (getOpts_fills_cache_of arg w Hpresent Hhash) as Hfill.
        fold first in Hfill. apply cache_hit_lastHash in Hfill.
        rewrite Hfill in Hc. injection Hc as Hc.
        rewrite Hnil in Hc. cbn in Hc. now apply Hhash.
      - eapply Forall_impl; [exact Hall|]. now intros e [_ He]. }
    rewrite (getOpts_hit
               (options_hash (String "#" (joined_written false m)))
               (String "#" (joined_written false m)) (fst first)
               (snd first) eq_refl ltac:(discriminate) Hne Hc).
    reflexivity.
  - exact (Hback eq_refl).
Qed.


(** X23.  Under the default getters, without JSON and without defaults,
    each key that [getOpts] reads is read once and has neither [";"] nor
    ["="]; each value is [null], a boolean, a string without these
    characters that is not a word for true or false, or an array of two
    or more strings without these characters. *)
Theorem getOpts_reads_plain (arg : option GetOpts) (w : World) :
  _getters (self w) = default_getters ->
  _json (self w) = None ->
  seed_of arg = [] ->
  hash_of arg w <> EmptyString -> hash_of arg w <> "#" ->
  cache_hit (self w) (hash_of arg w) = None ->
  let decoded := deref (snd (getOpts arg w)) (fst (getOpts arg w)) in
  NoDup (keys decoded)
  /\ Forall (fun e => plain (fst e) = true /\ comes_back (snd e) = true)
       decoded.
Proof.
  intros Hg Hj Hseed Hpresent Hhash Hmiss decoded.
  destruct (getOpts_miss_reads arg w Hpresent Hhash Hmiss) as [_ Hread].
  fold decoded in Hread. rewrite Hg, Hj, Hseed in Hread.
  destruct (read_segments_come_back (stripped (hash_of arg w)))
    as [[Hnd _] Hall].
  rewrite <- Hread in Hnd, Hall. now split.
Qed.

End Further.

(** ** Further examples on the page host *)

Section FurtherExamples.

#[local] Existing Instance page.


Lemma getOpts_empty_hash_witness :
  let w := page_world (page_instance false true) [] "#" in
  let arg := Some {| go_defaults := JObj [("z", JNum 9)]; go_hash := None;
                     go_default := JUndefined; go_shortOpt := None |} in
  let first := getOpts arg w in
  let second := getOpts arg (snd first) in
  (hash_of arg w = EmptyString \/ hash_of arg w = "#")
  /\ fst first = length (heap w)
  /\ deref (snd first) (fst first) = seed_of arg
  /\ self (snd first) = self w
  /\ host (snd first) = host w
  /\ fst second <> fst first
  /\ deref (snd second) (fst second) = seed_of arg
  /\ deref (snd second) (fst first) = seed_of arg.
Proof.
  intros w arg first second.
  assert (H : hash_of arg w = EmptyString \/ hash_of arg w = "#")
    by (right; reflexivity).
  split; [exact H|]. exact (getOpts_empty_hash arg w H).
Defined.

Lemma getOpts_cache_holds_one_witness :
  let a1 := options_hash "#a" in
  let a2 := options_hash "#b" in
  let w := page_world (page_instance false true) [] "" in
  let first := getOpts (Some a1) w in
  let second := getOpts (Some a2) (snd first) in
  let third := getOpts (Some a1) (snd second) in
  go_hash a1 = Some "#a" /\ go_hash a2 = Some "#b" /\ "#a" <> "#b"
  /\ "#a" <> EmptyString /\ "#a" <> "#" /\ "#b" <> EmptyString
  /\ "#b" <> "#" /\ cache_in_heap w
  /\ cache_hit (self (snd second)) "#a" = None
  /\ fst third = length (heap (snd second))
  /\ fst third <> fst first.
Proof.
  intros a1 a2 w first second third.
  assert (H1 : "#a" <> "#b") by discriminate.
  assert (H2 : "#a" <> EmptyString) by discriminate.
  assert (H3 : "#a" <> "#") by discriminate.
  assert (H4 : "#b" <> EmptyString) by discriminate.
  assert (H5 : "#b" <> "#") by discriminate.
  assert (H6 : cache_in_heap w) by exact I.
  do 2 (split; [reflexivity|]).
  do 6 (split; [assumption|]).
  exact (getOpts_cache_holds_one a1 a2 "#a" "#b" w eq_refl eq_refl
           H1 H2 H3 H4 H5 H6).
Defined.

Lemma getOpts_keeps_unnamed_witness :
  let w := page_world (page_instance false true) [] "" in
  let arg := Some {| go_defaults := JObj [("z", JNum 9)];
                     go_hash := Some "#a=1;b";
                     go_default := JUndefined; go_shortOpt := None |} in
  hash_of arg w <> EmptyString /\ hash_of arg w <> "#"
  /\ cache_hit (self w) (hash_of arg w) = None
  /\ Forall (fun segment =>
               segment_name (get_assign (_getters (self w))) segment <> "z")
       (split_by (get_separate (_getters (self w)))
          (stripped (hash_of arg w)))
  /\ lookup_prop "z" (deref (snd (getOpts arg w)) (fst (getOpts arg w)))
     = lookup_prop "z" (seed_of arg)
  /\ lookup_prop "z" (seed_of arg) = Some (JNum 9).
Proof.
  intros w arg.
  assert (H1 : hash_of arg w <> EmptyString) by discriminate.
  assert (H2 : hash_of arg w <> "#") by discriminate.
  assert (H3 : Forall (fun segment =>
                         segment_name (get_assign (_getters (self w)))
                           segment <> "z")
                 (split_by (get_separate (_getters (self w)))
                    (stripped (hash_of arg w)))).
  { change (split_by (get_separate (_getters (self w)))
              (stripped (hash_of arg w))) with ["a=1"; "b"].
    repeat constructor; discriminate. }
  do 2 (split; [assumption|]). split; [reflexivity|].
  split; [assumption|].
  split; [|reflexivity].
  exact (getOpts_keeps_unnamed arg w "z" H1 H2 eq_refl H3).
Defined.


Lemma getOpts_read_shape_witness :
  let w := page_world (page_instance false true) [] "" in
  let arg := Some {| go_defaults := JObj [("n", JNum 5); ("a", JNum 9)];
                     go_hash := Some "#a=1;b=x=y;c;d=No";
                     go_default := JUndefined; go_shortOpt := None |} in
  let decoded := deref (snd (getOpts arg w)) (fst (getOpts arg w)) in
  total_getters (_getters (self w)) = true
  /\ _json (self w) = None
  /\ hash_of arg w <> EmptyString /\ hash_of arg w <> "#"
  /\ cache_hit (self w) (hash_of arg w) = None
  /\ decoded
     = [("n", JNum 5); ("a", JStr "1"); ("b", JArr [JStr "x"; JStr "y"]);
        ("c", JNull); ("d", JBool false)]
  /\ lookup_prop "b" decoded = Some (JArr [JStr "x"; JStr "y"])
  /\ (read_shape (JArr [JStr "x"; JStr "y"]) = true
      \/ lookup_prop "b" (seed_of arg) = Some (JArr [JStr "x"; JStr "y"]))
  /\ lookup_prop "n" decoded = Some (JNum 5)
  /\ (read_shape (JNum 5) = true
      \/ lookup_prop "n" (seed_of arg) = Some (JNum 5)).
Proof.
  intros w arg decoded.
  assert (H1 : hash_of arg w <> EmptyString) by discriminate.
  assert (H2 : hash_of arg w <> "#") by discriminate.
  do 2 (split; [reflexivity|]). do 2 (split; [assumption|]).
  do 3 (split; [reflexivity|]).
  split.
  { exact (getOpts_read_shape arg w eq_refl eq_refl H1 H2 eq_refl
             "b" (JArr [JStr "x"; JStr "y"]) eq_refl). }
  split; [reflexivity|].
  exact (getOpts_read_shape arg w eq_refl eq_refl H1 H2 eq_refl
           "n" (JNum 5) eq_refl).
Defined.

Lemma getOpts_hash_character_optional_witness :
  let a1 := options_hash "a=1;b" in
  let a2 := options_hash "#a=1;b" in
  let w := page_world (page_instance false true) [] "" in
  go_hash a1 = Some "a=1;b" /\ go_hash a2 = Some (String "#" "a=1;b")
  /\ go_defaults a1 = go_defaults a2
  /\ "a=1;b" <> EmptyString /\ starts_with_hash "a=1;b" = false
  /\ cache_hit (self w) "a=1;b" = None
  /\ cache_hit (self w) (String "#" "a=1;b") = None
  /\ deref (snd (getOpts (Some a1) w)) (fst (getOpts (Some a1) w))
     = deref (snd (getOpts (Some a2) w)) (fst (getOpts (Some a2) w)).
Proof.
  intros a1 a2 w.
  assert (H1 : "a=1;b" <> EmptyString) by discriminate.
  do 3 (split; [reflexivity|]). split; [assumption|].
  do 3 (split; [reflexivity|]).
  exact (getOpts_hash_character_optional a1 a2 "a=1;b" w eq_refl eq_refl
           eq_refl H1 eq_refl eq_refl eq_refl).
Defined.

Lemma serialize_flat_array_witness :
  let this := page_instance false true in
  let items := [JNum 1; JObj [("k", JNum 2)]; JStr "x"; JNull] in
  serializeJsonArray this = false
  /\ serialize this [("list", JArr items)] None
     = Normal (("#" +:+ "list")
               +:+ flat_text (set_assign (_setters this))
                     (List.filter string_or_number items))
  /\ ("#" +:+ "list")
     +:+ flat_text (set_assign (_setters this))
           (List.filter string_or_number items) = "#list=1=x".
Proof.
  intros this items. split; [reflexivity|]. split; [|reflexivity].
  exact (serialize_flat_array this "list" items None eq_refl).
Defined.

Lemma serialize_succeeds_witness :
  let this := page_instance false true in
  let obj := [("a", JNum 1); ("l", JArr [JObj []]); ("t", JBool true)] in
  enabled (set_true (_setters this)) <> None
  /\ enabled (set_false (_setters this)) <> None
  /\ Forall (fun e => writable (snd e) = true) obj
  /\ Forall (fun e =>
               written_flat this (autoArray_of this None) (snd e) = true) obj
  /\ exists text, serialize this obj None = Normal text.
Proof.
  intros this obj.
  assert (H1 : enabled (set_true (_setters this)) <> None) by discriminate.
  assert (H2 : enabled (set_false (_setters this)) <> None) by discriminate.
  assert (H3 : Forall (fun e : string * value => writable (snd e) = true) obj)
    by (repeat constructor).
  assert (H4 : Forall (fun e : string * value =>
                         written_flat this (autoArray_of this None) (snd e)
                         = true) obj)
    by (repeat constructor).
  do 4 (split; [assumption|]).
  exact (serialize_succeeds this obj None H1 H2 H3 H4).
Defined.

Lemma replace_then_getOpts_witness :
  let w := page_world (page_instance false true) [[("a", JNum 1)]] "" in
  serialize (self w) (deref w 0%nat) None = Normal "#a=1"
  /\ exists w',
      replace 0%nat None w = (Normal tt, w')
      /\ heap w' = heap w
      /\ setHash_calls w' = setHash_calls w ++ ["#a=1"]
      /\ host w' = _setHash (self w) "#a=1" (host w)
      /\ ("#a=1" <> "#" ->
          (forall a, go_hash a = Some "#a=1" ->
                     getOpts (Some a) w' = (0%nat, w'))
          /\ (_getHash (self w) (host w') = "#a=1" ->
              getOpts None w' = (0%nat, w'))).
Proof.
  intros w. split; [reflexivity|].
  exact (replace_then_getOpts 0%nat None w "#a=1" eq_refl).
Defined.

Lemma update_failure_keeps_changes_witness :
  let w := page_world (page_instance false true) [] "#a=1" in
  let updates := [("x", JObj [("k", JNum 1)])] in
  let e := Error "Cannot serialize object when JSON is disabled" in
  let current := fst (getOpts None w) in
  let w1 := snd (getOpts None w) in
  let merged := fold_left apply_update updates (deref w1 current) in
  let w2 := snd (update updates None None w) in
  cache_in_heap w
  /\ serialize (self w1) merged None = Throw e
  /\ fst (update updates None None w) = Throw e
  /\ setHash_calls w2 = setHash_calls w
  /\ host w2 = host w
  /\ deref w2 current = merged
  /\ (hash_of None w <> EmptyString -> hash_of None w <> "#" ->
      getOpts None w2 = (current, w2)).
Proof.
  intros w updates e current w1 merged w2.
  assert (H1 : cache_in_heap w) by exact I.
  split; [assumption|]. split; [reflexivity|].
  exact (update_failure_keeps_changes updates None None w e H1 eq_refl).
Defined.

Lemma delete_removes_witness :
  let w := page_world (page_instance false true) [] "#a=1;b=2;c" in
  let w2 := snd (delete ["b"; "zz"] None None w) in
  let current := fst (getOpts None w) in
  let w1 := snd (getOpts None w) in
  forallb ordinary ["b"; "zz"] = true
  /\ forallb ordinary (keys (deref w1 current)) = true
  /\ cache_in_heap w
  /\ delete ["b"; "zz"] None None w = (Normal tt, w2)
  /\ (forall k,
         lookup_prop k (deref w2 current)
         = if existsb (String.eqb k) ["b"; "zz"] then None
           else lookup_prop k (deref w1 current))
  /\ exists text,
      serialize (self w1) (deref w2 current) None = Normal text
      /\ setHash_calls w2 = setHash_calls w ++ [text].
Proof.
  intros w w2 current w1.
  assert (H1 : cache_in_heap w) by exact I.
  do 2 (split; [reflexivity|]).
  split; [assumption|]. split; [reflexivity|].
  exact (delete_removes ["b"; "zz"] None None w w2 eq_refl eq_refl H1
           eq_refl).
Defined.

Lemma reconfigure_keeps_cache_witness :
  let w := snd (getOpts (Some (options_hash "#a=1;b"))
                  (page_world (page_instance false true) [] "")) in
  let this' := match setGetter "separate" (JStr ",") (self w) with
               | Normal i => i
               | Throw _ => self w
               end in
  let a := options_hash "#a=1;b" in
  ((exists name v, setGetter name v (self w) = Normal this')
   \/ (exists obj, setGetters obj (self w) = Normal this')
   \/ (exists name v, setSetter name v (self w) = Normal this')
   \/ (exists obj, setSetters obj (self w) = Normal this')
   \/ (exists v, useJson v (self w) = Normal this'))
  /\ go_hash a = Some "#a=1;b" /\ "#a=1;b" <> EmptyString
  /\ "#a=1;b" <> "#"
  /\ cache_hit (self w) "#a=1;b" = Some 0%nat
  /\ getOpts (Some a) (with_self this' w) = (0%nat, with_self this' w).
Proof.
  intros w this' a.
  assert (H0 : (exists name v, setGetter name v (self w) = Normal this')
               \/ (exists obj, setGetters obj (self w) = Normal this')
               \/ (exists name v, setSetter name v (self w) = Normal this')
               \/ (exists obj, setSetters obj (self w) = Normal this')
               \/ (exists v, useJson v (self w) = Normal this')).
  { left. exists "separate", (JStr ","). reflexivity. }
  assert (H1 : "#a=1;b" <> EmptyString) by discriminate.
  assert (H2 : "#a=1;b" <> "#") by discriminate.
  split; [assumption|]. split; [reflexivity|].
  do 2 (split; [assumption|]). split; [reflexivity|].
  exact (reconfigure_keeps_cache w this' a "#a=1;b" 0%nat H0 eq_refl H1 H2
           eq_refl).
Defined.

Lemma static_getOpts_new_object_witness :
  let w := snd (getOpts (Some (options_hash "#a=1"))
                  (page_world (page_instance false true) [] "")) in
  let arg := Some (options_hash "#a=1") in
  let result := match static_getOpts arg None w with
                | Normal r => r
                | Throw _ => (0%nat, w)
                end in
  let l := fst result in
  let w' := snd result in
  static_getOpts arg None w = Normal (l, w')
  /\ fst (getOpts arg w) = 0%nat
  /\ l = length (heap w)
  /\ (exists o, heap w' = heap w ++ [o] /\ deref w' l = o)
  /\ forall this,
      new_URLHash None = Normal this ->
      hash_of arg (with_self this w) <> EmptyString ->
      hash_of arg (with_self this w) <> "#" ->
      deref w' l
      = read_segments (_getters this) (_json this) (seed_of arg)
          (stripped (hash_of arg (with_self this w))).
Proof.
  intros w arg result l w'.
  do 2 (split; [reflexivity|]).
  exact (static_getOpts_new_object arg None w w' l eq_refl).
Defined.

Lemma roundtrip_flat_array_witness :
  let w := page_world (page_instance false true) [] "" in
  let items := [JStr "x"; JNum 2; JStr "true"] in
  _getters (self w) = default_getters
  /\ _setters (self w) = default_setters
  /\ _json (self w) = None
  /\ "list" <> EmptyString /\ plain "list" = true
  /\ ordinary "list" = true
  /\ Forall (fun v => plain_item v = true) items
  /\ exists text,
      serialize (self w) [("list", JArr items)] None = Normal text
      /\ text = "#" +:+ "list" +:+ flat_text "=" items
      /\ (cache_hit (self w) text = None ->
          let decoded := getOpts (Some (options_hash text)) w in
          deref (snd decoded) (fst decoded)
          = [("list",
              match items with
              | [] => JNull
              | [item] =>
                getVal None (get_true default_getters)
                  (get_false default_getters) (text_of item)
              | _ :: _ :: _ => JArr (map (fun v => JStr (text_of v)) items)
              end)]).
Proof.
  intros w items.
  assert (H1 : "list" <> EmptyString) by discriminate.
  assert (H2 : Forall (fun v => plain_item v = true) items)
    by (repeat constructor).
  do 3 (split; [reflexivity|]). split; [assumption|].
  do 2 (split; [reflexivity|]). split; [assumption|].
  exact (roundtrip_flat_array "list" items None w eq_refl eq_refl eq_refl
           H1 eq_refl eq_refl H2).
Defined.

Lemma replace_empty_object_witness :
  let w := page_world (page_instance false true) [[]] "#a" in
  deref w 0%nat = []
  /\ exists w',
      replace 0%nat None w = (Normal tt, w')
      /\ setHash_calls w' = setHash_calls w ++ ["#"]
      /\ _lastHash (self w') = Some "#"
      /\ _lastOpts (self w') = Some 0%nat
      /\ (_getHash (self w) (host w') = "#" ->
          fst (getOpts None w') = length (heap w)
          /\ deref (snd (getOpts None w')) (fst (getOpts None w')) = []
          /\ ((0 < length (heap w))%nat -> fst (getOpts None w') <> 0%nat)).
Proof.
  intros w. split; [reflexivity|].
  exact (replace_empty_object 0%nat None w eq_refl).
Defined.


Lemma roundtrip_with_arrays_witness :
  let w := page_world (page_instance false true) [] "" in
  let m := [("7", JNull); ("a", JStr "x");
            ("l", JArr [JStr "p"; JStr "q"; JStr "7"]);
            ("on", JBool true)] in
  _getters (self w) = default_getters
  /\ _setters (self w) = default_setters
  /\ _json (self w) = None
  /\ well_formed m
  /\ Forall (fun e => plain (fst e) = true /\ comes_back (snd e) = true) m
  /\ forallb ordinary (keys m) = true
  /\ m <> [(EmptyString, JNull)]
  /\ exists text,
      serialize (self w) m None = Normal text
      /\ (cache_hit (self w) text = None ->
          let decoded := getOpts (Some (options_hash text)) w in
          deref (snd decoded) (fst decoded) = m).
Proof.
  intros w m.
  assert (Hwf : well_formed m).
  { split; [|reflexivity].
    apply (bool_decide_unpack (NoDup (keys m))). vm_compute. exact I. }
  assert (Hall : Forall (fun e => plain (fst e) = true
                                  /\ comes_back (snd e) = true) m).
  { unfold m. repeat (apply Forall_cons; split; [split; reflexivity|]).
    apply Forall_nil_2. }
  assert (Hflag : m <> [(EmptyString, JNull)]) by discriminate.
  do 3 (split; [reflexivity|]). do 2 (split; [assumption|]).
  split; [reflexivity|]. split; [assumption|].
  exact (roundtrip_with_arrays m None w eq_refl eq_refl eq_refl Hwf Hall
           eq_refl Hflag).
Defined.

Lemma getOpts_stable_witness :
  let w := page_world (page_instance false true) []
             "#b=YES;a=x=y;3;c=No;b=1" in
  let first := getOpts None w in
  let m := deref (snd first) (fst first) in
  _getters (self w) = default_getters
  /\ _setters (self w) = default_setters
  /\ _json (self w) = None
  /\ seed_of None = []
  /\ hash_of None w <> EmptyString /\ hash_of None w <> "#"
  /\ cache_hit (self w) (hash_of None w) = None
  /\ forallb ordinary (keys m) = true
  /\ m <> [(EmptyString, JNull)]
  /\ m = [("3", JNull); ("b", JStr "1");
          ("a", JArr [JStr "x"; JStr "y"]); ("c", JBool false)]
  /\ exists text,
      serialize (self (snd first)) m None = Normal text
      /\ (let second := getOpts (Some (options_hash text)) (snd first) in
          deref (snd second) (fst second) = m).
Proof.
  intros w first m.
  assert (H1 : hash_of None w <> EmptyString) by discriminate.
  assert (H2 : hash_of None w <> "#") by discriminate.
  assert (H3 : m <> [(EmptyString, JNull)]) by discriminate.
  do 4 (split; [reflexivity|]). do 2 (split; [assumption|]).
  do 2 (split; [reflexivity|]). split; [assumption|].
  split; [reflexivity|].
  exact (getOpts_stable None None w eq_refl eq_refl eq_refl eq_refl H1 H2
           eq_refl eq_refl H3).
Defined.


Lemma getOpts_reads_plain_witness :
  let w := page_world (page_instance false true) []
             "#b=YES;a=x=y;3;c=No;b=1" in
  let decoded := deref (snd (getOpts None w)) (fst (getOpts None w)) in
  _getters (self w) = default_getters
  /\ _json (self w) = None
  /\ seed_of None = []
  /\ hash_of None w <> EmptyString /\ hash_of None w <> "#"
  /\ cache_hit (self w) (hash_of None w) = None
  /\ NoDup (keys decoded)
  /\ Forall (fun e => plain (fst e) = true /\ comes_back (snd e) = true)
       decoded.
Proof.
  intros w decoded.
  assert (H1 : hash_of None w <> EmptyString) by discriminate.
  assert (H2 : hash_of None w <> "#") by discriminate.
  do 3 (split; [reflexivity|]). do 2 (split; [assumption|]).
  split; [reflexivity|].
  exact (getOpts_reads_plain None w eq_refl eq_refl eq_refl H1 H2 eq_refl).
Defined.


Lemma getOpt_named_or_default_witness :
  let w := page_world (page_instance false true) [] "#mode=dark;fast" in
  let a := {| go_defaults := JUndefined; go_hash := None;
              go_default := JStr "none"; go_shortOpt := None |} in
  let decoded := deref (snd (getOpts (Some a) w)) (fst (getOpts (Some a) w)) in
  forallb ordinary (keys decoded) = true
  /\ lookup_prop "mode" decoded = Some (JStr "dark")
  /\ fst (getOpt "mode" (Some a) w) = JStr "dark"
  /\ obj_get decoded "size" = JUndefined
  /\ truthy (JBool (shortOpt (self w))) = false
  /\ fst (getOpt "size" (Some a) w) = JStr "none".
Proof.
  intros w a decoded.
  split; [reflexivity|].
  split; [reflexivity|].
  split.
  { apply (proj1 (getOpt_named_or_default "mode" a w eq_refl) (JStr "dark"));
      [reflexivity|discriminate]. }
  do 2 (split; [reflexivity|]).
  exact (proj1 (proj2 (getOpt_named_or_default "size" a w eq_refl))
           eq_refl eq_refl).
Defined.

End FurtherExamples.

End URLHash.
